(** * fk-converter: option resolution, validation, argument building and
      progress parsing of [converter/converter.go], embedded in Rocq.

    Go strings are byte strings: they are modelled by [String.string]
    (a list of 8-bit [ascii]).  Go maps used as read-only tables are
    [gmap]s, looked up with the zero value as default, as Go does.
    [int], [int64] and [time.Duration] are [Z]; 64-bit wrap-around is
    written out where the code multiplies.  [float64] is IEEE binary64
    as specified by [SpecFloat] with precision 53 and [emax] 1024.

    The two regular expressions are translated into matchers, which are
    then proved to accept what the expressions accept.  A panic is
    [None].  What the program takes from outside (the result of
    [os.Stat], of the duration probe, and the behaviour of the encoder
    process) is a parameter of the functions that use it, and a callback
    is a function on the state of its caller. *)

From Stdlib Require Import ZArith String Ascii List Bool Lia.
From Stdlib Require Import DecimalString SpecFloat.
From stdpp Require Import base gmap strings.

Import ListNotations.
Local Open Scope string_scope.
Local Open Scope Z_scope.

(** ** The Go [strings] functions the package calls *)

Module GoStrings.

(** [len(s) >= len(prefix) && s[:len(prefix)] == prefix] *)
Fixpoint HasPrefix (s pre : string) {struct pre} : bool :=
  match pre with
  | EmptyString => true
  | String a pre' =>
      match s with
      | EmptyString => false
      | String b s' => Ascii.eqb a b && HasPrefix s' pre'
      end
  end.

(** [len(s) >= len(suffix) && s[len(s)-len(suffix):] == suffix] *)
Definition HasSuffix (s suffix : string) : bool :=
  (String.length suffix <=? String.length s)%nat
  && String.eqb
       (substring (String.length s - String.length suffix)
                  (String.length suffix) s)
       suffix.

(** [strings.TrimSuffix]: [s] without the trailing [suffix], or [s] itself. *)
Definition TrimSuffix (s suffix : string) : string :=
  if HasSuffix s suffix
  then substring 0 (String.length s - String.length suffix) s
  else s.

(** [strings.Contains]: [substr] occurs somewhere in [s]. *)
Fixpoint Contains (s substr : string) : bool :=
  HasPrefix s substr
  || match s with
     | EmptyString => false
     | String _ rest => Contains rest substr
     end.

(** [strings.Split] for a one-byte separator, the only way the package
    calls it (["."] and ["x"]): the pieces between the separators, always
    at least one piece. *)
Fixpoint Split (s : string) (sep : ascii) : list string :=
  match s with
  | EmptyString => [EmptyString]
  | String c rest =>
      if Ascii.eqb c sep then EmptyString :: Split rest sep
      else match Split rest sep with
           | piece :: pieces => String c piece :: pieces
           | [] => [String c EmptyString]
           end
  end.

End GoStrings.
Import GoStrings.

(** ** The option model *)

Definition Quality := string.

Definition QualityLow : Quality := "low".
Definition QualityMedium : Quality := "medium".
Definition QualityHigh : Quality := "high".
Definition QualityLossless : Quality := "lossless".

Record Options := mkOptions {
  Input : string;
  Output : string;
  Format : string;
  OQuality : Quality;
  Resolution : string;
  Codec : string
}.

(** Field assignments through the [*Options] pointer. *)
Definition set_Output (o : Options) (v : string) : Options :=
  mkOptions (Input o) v (Format o) (OQuality o) (Resolution o) (Codec o).
Definition set_Format (o : Options) (v : string) : Options :=
  mkOptions (Input o) (Output o) v (OQuality o) (Resolution o) (Codec o).
Definition set_Quality (o : Options) (v : Quality) : Options :=
  mkOptions (Input o) (Output o) (Format o) v (Resolution o) (Codec o).

Definition isEmpty (s : string) : bool := String.eqb s "".

(** [getExtension]: the last piece of the name split at ["."], or [""]
    when there is a single piece. *)
Definition getExtension (filename : string) : string :=
  let parts := Split filename "." in
  if (1 <? List.length parts)%nat then List.last parts "" else "".

(** [ResolveOutput], the four assignments in source order. *)
Definition ResolveOutput (opts : Options) : Options :=
  let opts :=
    if negb (isEmpty (Output opts)) && isEmpty (Format opts) then
      let parts := Split (Output opts) "." in
      if (1 <? List.length parts)%nat
      then set_Format opts (List.last parts "")
      else opts
    else opts in
  let opts :=
    if isEmpty (Format opts) then set_Format opts "mp4" else opts in
  let opts :=
    if isEmpty (Output opts) then
      let base := TrimSuffix (Input opts) ("." +:+ getExtension (Input opts)) in
      set_Output opts (base +:+ "_converted." +:+ Format opts)
    else opts in
  let opts :=
    if isEmpty (OQuality opts) then set_Quality opts QualityMedium else opts in
  opts.

(** ** The fixed tables *)

(** Indexing a Go map yields the zero value of the element type when the
    key is absent. *)
Definition index_or {V} (zero : V) (m : gmap string V) (k : string) : V :=
  default zero (m !! k).

(** The comma-ok form [_, ok := m[k]]. *)
Definition has_key {V} (m : gmap string V) (k : string) : bool :=
  match m !! k with Some _ => true | None => false end.

Definition crfMap : gmap string Z :=
  <[QualityLow := 28]> (<[QualityMedium := 23]> (<[QualityHigh := 18]>
    (<[QualityLossless := 0]> ∅))).

Definition supportedFormats : gmap string bool :=
  <["mp4" := true]> (<["mkv" := true]> (<["webm" := true]>
    (<["avi" := true]> (<["mov" := true]> ∅)))).

Definition codecMap : gmap string string :=
  <["h264" := "libx264"]> (<["h265" := "libx265"]>
    (<["vp9" := "libvpx-vp9"]> ∅)).

(** ** Resolutions *)

(** The class [\d] of Go's [regexp]: the ASCII digits. *)
Definition isDigit (c : ascii) : bool :=
  let n := N_of_ascii c in (48 <=? n)%N && (n <=? 57)%N.

Fixpoint allDigits (s : string) : bool :=
  match s with
  | EmptyString => true
  | String c rest => isDigit c && allDigits rest
  end.

(** The longest prefix of digits, and what follows it. *)
Fixpoint spanDigits (s : string) : string * string :=
  match s with
  | EmptyString => (EmptyString, EmptyString)
  | String c rest =>
      if isDigit c
      then let '(ds, tl) := spanDigits rest in (String c ds, tl)
      else (EmptyString, s)
  end.

(** [regexp.MatchString(`^\d+x\d+$`, res)]: the whole text is a non-empty
    run of digits, an ["x"], and a non-empty run of digits. *)
Definition matchDimension (res : string) : bool :=
  let '(w, tl) := spanDigits res in
  negb (isEmpty w)
  && match tl with
     | String c h => Ascii.eqb c "x" && negb (isEmpty h) && allDigits h
     | EmptyString => false
     end.

Definition resolutionPresets : gmap string bool :=
  <["2160p" := true]> (<["1440p" := true]> (<["1080p" := true]>
    (<["720p" := true]> (<["480p" := true]> (<["360p" := true]> ∅))))).

Definition isValidResolution (res : string) : bool :=
  if index_or false resolutionPresets res then true
  else matchDimension res.

Definition scalePresets : gmap string string :=
  <["2160p" := "scale=-2:2160"]> (<["1440p" := "scale=-2:1440"]>
    (<["1080p" := "scale=-2:1080"]> (<["720p" := "scale=-2:720"]>
      (<["480p" := "scale=-2:480"]> (<["360p" := "scale=-2:360"]> ∅))))).

(** [resolveScale].  [parts[1]] is an index expression: when the text has
    no ["x"] the slice has one element and the Go program panics, which
    is [None] here. *)
Definition resolveScale (res : string) : option string :=
  match scalePresets !! res with
  | Some scale => Some scale
  | None =>
      let parts := Split res "x" in
      p0 ← parts !! 0%nat;
      p1 ← parts !! 1%nat;
      Some ("scale=" +:+ p0 +:+ ":" +:+ p1)
  end.

(** ** Validation *)

(** What [os.Stat] reports for a path. *)
Inductive StatResult := StatOk | StatNotExist | StatOtherError.

(** [os.IsNotExist(err)] on the error of [os.Stat]. *)
Definition IsNotExist (r : StatResult) : bool :=
  match r with StatNotExist => true | _ => false end.

(** [ValidateOptions]: [None] is the [nil] error, [Some msg] the error
    built by [fmt.Errorf], with its message. *)
Definition ValidateOptions (stat : string -> StatResult) (opts : Options)
  : option string :=
  if IsNotExist (stat (Input opts)) then
    Some ("input file does not exist: " +:+ Input opts)
  else if negb (isEmpty (Format opts))
          && negb (index_or false supportedFormats (Format opts)) then
    Some ("unsupported format: " +:+ Format opts
          +:+ " (supported: mp4, mkv, webm, avi, mov)")
  else if negb (isEmpty (Codec opts)) && negb (has_key codecMap (Codec opts)) then
    Some ("unsupported codec: " +:+ Codec opts
          +:+ " (supported: h264, h265, vp9)")
  else if negb (isEmpty (OQuality opts))
          && negb (has_key crfMap (OQuality opts)) then
    Some ("unsupported quality: " +:+ OQuality opts
          +:+ " (supported: low, medium, high, lossless)")
  else if negb (isEmpty (Resolution opts))
          && negb (isValidResolution (Resolution opts)) then
    Some ("invalid resolution: " +:+ Resolution opts
          +:+ " (examples: 1080p, 720p, 480p, or 1920x1080)")
  else None.

(** ** The argument builder *)

(** [strconv.Itoa]: the decimal text of an [int]. *)
Definition Itoa (i : Z) : string := NilZero.string_of_int (Z.to_int i).

(** The codec library chosen by [buildFFmpegArgs]. *)
Definition chosenCodec (opts : Options) : string :=
  if negb (isEmpty (Codec opts)) then index_or "" codecMap (Codec opts)
  else if String.eqb (Format opts) "webm" then "libvpx-vp9"
  else "libx264".

(** [buildFFmpegArgs].  [None] is the panic of [resolveScale]. *)
Definition buildFFmpegArgs (opts : Options) : option (list string) :=
  let args := ["-i"; Input opts; "-y"; "-progress"; "pipe:2"; "-nostats"] in
  let codec := chosenCodec opts in
  let args := (args ++ ["-c:v"; codec])%list in
  let crf := index_or 0 crfMap (OQuality opts) in
  let args :=
    if Contains codec "vpx"
    then (args ++ ["-crf"; Itoa crf; "-b:v"; "0"])%list
    else (args ++ ["-crf"; Itoa crf])%list in
  let args := (args ++ ["-c:a"; "aac"; "-b:a"; "128k"])%list in
  args ← (if negb (isEmpty (Resolution opts)) then
            scale ← resolveScale (Resolution opts);
            Some (args ++ ["-vf"; scale])%list
          else Some args);
  Some (args ++ [Output opts])%list.

(** ** Numbers: [int64], [time.Duration] and [float64] *)

Definition maxInt64 : Z := 2 ^ 63 - 1.
Definition minInt64 : Z := - 2 ^ 63.

(** The value an [int64] operation keeps of a mathematical result. *)
Definition wrap64 (z : Z) : Z := (z + 2 ^ 63) mod 2 ^ 64 - 2 ^ 63.

(** [time.Duration] counts nanoseconds in an [int64]. *)
Definition Microsecond : Z := 1000.
Definition Second : Z := 1000000000.

(** The most microseconds that a [time.Duration] holds. *)
Definition maxMicroseconds : Z := maxInt64 / Microsecond.

Module Float64.

Definition prec : Z := 53.
Definition emax : Z := 1024.

Definition float64 := spec_float.

(** The conversion [float64(i)] of an [int64]: round to nearest, ties to
    even. *)
Definition of_int64 (i : Z) : float64 := binary_normalize prec emax i 0 false.

Definition div (x y : float64) : float64 := SFdiv prec emax x y.
Definition mul (x y : float64) : float64 := SFmul prec emax x y.
Definition gt (x y : float64) : bool := SFltb y x.
Definition le (x y : float64) : bool := SFleb x y.

(** The constant [100] at type [float64]. *)
Definition hundred : float64 := Eval vm_compute in of_int64 100.
Definition zero : float64 := S754_zero false.


Definition is_nan (x : float64) : bool :=
  match x with S754_nan => true | _ => false end.

End Float64.
Import Float64.

(** ** The progress stream *)

(** [strconv.ParseInt(s, 10, 64)]: an optional sign and decimal digits;
    [None] is a non-nil error (syntax, or a value out of [int64]). *)
Definition digitValue (c : ascii) : Z := Z.of_N (N_of_ascii c) - 48.

Fixpoint decimalValue (acc : Z) (s : string) : Z :=
  match s with
  | EmptyString => acc
  | String c rest => decimalValue (10 * acc + digitValue c) rest
  end.

Definition ParseInt (s : string) : option Z :=
  let '(neg, body) :=
    match s with
    | String "+"%char rest => (false, rest)
    | String "-"%char rest => (true, rest)
    | _ => (false, s)
    end in
  if isEmpty body || negb (allDigits body) then None
  else
    let un := decimalValue 0 body in
    if negb neg && (2 ^ 63 <=? un) then None
    else if neg && (2 ^ 63 <? un) then None
    else Some (if neg then - un else un).

(** [s] with the prefix [pre] removed, when it starts with it. *)
Fixpoint stripPrefix (pre s : string) : option string :=
  match pre, s with
  | EmptyString, _ => Some s
  | String a pre', String b s' =>
      if Ascii.eqb a b then stripPrefix pre' s' else None
  | String _ _, EmptyString => None
  end.

Definition timeMarker : string := "out_time_us=".

(** A match of [out_time_us=(\d+)] that starts at the first byte: the
    whole match and the group, the digits taken greedily. *)
Definition timeRegexAt (s : string) : option (list string) :=
  match stripPrefix timeMarker s with
  | Some tl =>
      let ds := fst (spanDigits tl) in
      if isEmpty ds then None else Some [timeMarker +:+ ds; ds]
  | None => None
  end.

(** [timeRegex.FindStringSubmatch]: the leftmost match, [nil] if none. *)
Fixpoint FindStringSubmatch (s : string) : list string :=
  match timeRegexAt s with
  | Some m => m
  | None =>
      match s with
      | EmptyString => []
      | String _ rest => FindStringSubmatch rest
      end
  end.

(** The body of the scanning loop for one line: the percentage handed to
    the callback, or [None] when the callback is not called. *)
Definition lineProgress (total : Z) (line : string) : option float64 :=
  let matches := FindStringSubmatch line in
  if (List.length matches =? 2)%nat then
    match ParseInt (nth 1 matches "") with
    | None => None
    | Some us =>
        let current := wrap64 (us * Microsecond) in
        let percent := mul (div (of_int64 current) (of_int64 total)) hundred in
        let percent := if gt percent hundred then hundred else percent in
        Some percent
    end
  else None.

(** A callback acts on the state of its caller. *)
Definition ProgressFunc (St : Type) := float64 -> St -> St.

(** [parseProgress].  The reader behind the [bufio.Scanner] is given by
    the lines that [scanner.Scan] yields before it stops (at the end of
    the stream, at a read error, or at a line that exceeds its buffer);
    the loop body runs once for each of them, in order. *)
Fixpoint parseProgress {St} (r : list string) (total : Z)
    (onProgress : ProgressFunc St) (st : St) : St :=
  match r with
  | [] => st
  | line :: rest =>
      let st' :=
        match lineProgress total line with
        | Some percent => onProgress percent st
        | None => st
        end in
      parseProgress rest total onProgress st'
  end.

(** The callback that records what it is given. *)
Definition record : ProgressFunc (list float64) := fun p log => (log ++ [p])%list.

(** ** Running a conversion *)

(** What the two external programs do, as far as [Convert] observes it.
    [ffprobe] stands for the whole of [probeDuration]: [None] is its
    non-nil error, [Some d] the duration it returns.  [ffmpeg] gives, for
    an argument list, the process that [exec.Command] starts. *)
Record Process := mkProcess {
  pipeError : option string;
  startError : option string;
  stderrLines : list string;
  waitError : option string
}.

Record World := mkWorld {
  ffprobe : string -> option Z;
  ffmpeg : list string -> Process
}.

(** What [Convert] does with the diagnostic stream. *)
Inductive Action :=
| Probe (input : string)
| Start (args : list string)
| Parse (total : Z)
| Drain
| Wait.

Inductive Outcome :=
| Returned (err : option string)
| Panicked.

Record Run (St : Type) := mkRun {
  actions : list Action;
  final : St;
  outcome : Outcome
}.
Arguments mkRun {St}.
Arguments actions {St}.
Arguments final {St}.
Arguments outcome {St}.

(** [Convert].  A [nil] callback is [None]. *)
Definition Convert {St} (w : World) (opts : Options)
    (onProgress : option (ProgressFunc St)) (st : St) : Run St :=
  let totalDuration :=
    match ffprobe w (Input opts) with
    | Some d => d
    | None => 0
    end in
  let acts := [Probe (Input opts)] in
  match buildFFmpegArgs opts with
  | None => mkRun acts st Panicked
  | Some args =>
      let cmd := ffmpeg w args in
      match pipeError cmd with
      | Some e =>
          mkRun acts st (Returned (Some ("failed to capture ffmpeg output: " +:+ e)))
      | None =>
          match startError cmd with
          | Some e =>
              mkRun acts st (Returned (Some ("failed to start ffmpeg: " +:+ e)))
          | None =>
              let acts := (acts ++ [Start args])%list in
              let '(act, st') :=
                match onProgress with
                | Some f =>
                    if 0 <? totalDuration
                    then (Parse totalDuration,
                          parseProgress (stderrLines cmd) totalDuration f st)
                    else (Drain, st)
                | None => (Drain, st)
                end in
              let acts := (acts ++ [act; Wait])%list in
              match waitError cmd with
              | Some e =>
                  mkRun acts st' (Returned (Some ("ffmpeg conversion failed: " +:+ e)))
              | None => mkRun acts st' (Returned None)
              end
          end
      end
  end.

(** The percentages a stream hands to the callback, in order. *)
Fixpoint percentages (total : Z) (r : list string) : list float64 :=
  match r with
  | [] => []
  | line :: rest =>
      match lineProgress total line with
      | Some percent => percent :: percentages total rest
      | None => percentages total rest
      end
  end.

(** ** The specification's reading of the same operations *)

Module Spec.

(** The four quality presets and the rate-factor table. *)
Inductive Preset := Low | Medium | High | Lossless.

Definition presetName (p : Preset) : Quality :=
  match p with
  | Low => "low" | Medium => "medium" | High => "high" | Lossless => "lossless"
  end.

Definition rateFactor (p : Preset) : Z :=
  match p with
  | Low => 28 | Medium => 23 | High => 18 | Lossless => 0
  end.

Definition rateText (p : Preset) : string :=
  match p with
  | Low => "28" | Medium => "23" | High => "18" | Lossless => "0"
  end.

(** The three codecs and their encoder libraries. *)
Inductive CodecName := H264 | H265 | VP9.

Definition codecName (c : CodecName) : string :=
  match c with H264 => "h264" | H265 => "h265" | VP9 => "vp9" end.

Definition library (c : CodecName) : string :=
  match c with
  | H264 => "libx264" | H265 => "libx265" | VP9 => "libvpx-vp9"
  end.

Definition formats : list string := ["mp4"; "mkv"; "webm"; "avi"; "mov"].
Definition libraries : list string := ["libx264"; "libx265"; "libvpx-vp9"].
Definition rateTexts : list string := ["28"; "23"; "18"; "0"].
Definition codecs : list string := ["h264"; "h265"; "vp9"].
Definition qualities : list string := ["low"; "medium"; "high"; "lossless"].
Definition resolutions : list string :=
  ["2160p"; "1440p"; "1080p"; "720p"; "480p"; "360p"].

(** The text after the last ["."] of a path, if it has one. *)
Fixpoint afterLastDot (s : string) : option string :=
  match s with
  | EmptyString => None
  | String c rest =>
      match afterLastDot rest with
      | Some e => Some e
      | None => if Ascii.eqb c "." then Some rest else None
      end
  end.

(** The path without its last ["."] and what follows it. *)
Fixpoint stem (s : string) : string :=
  match s with
  | EmptyString => EmptyString
  | String c rest =>
      match afterLastDot rest with
      | Some _ => String c (stem rest)
      | None => if Ascii.eqb c "." then EmptyString else s
      end
  end.

(** The resolver as the four steps of the specification: each field is
    computed from the request, the output from the final format. *)
Definition resolve (o : Options) : Options :=
  let inferred :=
    if negb (isEmpty (Output o)) && isEmpty (Format o)
    then default "" (afterLastDot (Output o))
    else Format o in
  let format := if isEmpty inferred then "mp4" else inferred in
  let output :=
    if isEmpty (Output o)
    then stem (Input o) +:+ "_converted." +:+ format
    else Output o in
  let quality := if isEmpty (OQuality o) then "medium" else OQuality o in
  mkOptions (Input o) output format quality (Resolution o) (Codec o).

(** The regular expressions of the package, [^\d+x\d+$] and
    [out_time_us=(\d+)], are built from single bytes, the class [\d],
    concatenation and [+]; [Matches r s] says that the whole of [s]
    matches [r]. *)
Inductive regex :=
| rChar (c : ascii)
| rDigit
| rSeq (r1 r2 : regex)
| rPlus (r : regex).

Inductive Matches : regex -> string -> Prop :=
| MChar c : Matches (rChar c) (String c "")
| MDigit c : isDigit c = true -> Matches rDigit (String c "")
| MSeq r1 r2 s1 s2 :
    Matches r1 s1 -> Matches r2 s2 -> Matches (rSeq r1 r2) (s1 +:+ s2)
| MPlusOne r s : Matches r s -> Matches (rPlus r) s
| MPlusMore r s1 s2 :
    Matches r s1 -> Matches (rPlus r) s2 -> Matches (rPlus r) (s1 +:+ s2).

(** The literal text [c] followed by [s]. *)
Fixpoint rText (c : ascii) (s : string) : regex :=
  match s with
  | EmptyString => rChar c
  | String c' s' => rSeq (rChar c) (rText c' s')
  end.

Definition dimensionRegex : regex :=
  rSeq (rPlus rDigit) (rSeq (rChar "x") (rPlus rDigit)).

Definition timeRegex : regex := rSeq (rText "o" "ut_time_us=") (rPlus rDigit).

(** The explicit-dimension pattern: digits, an ["x"], digits. *)
Definition DimensionPattern (res : string) : Prop :=
  exists w h : string,
    res = w +:+ "x" +:+ h /\ w <> "" /\ h <> ""
    /\ allDigits w = true /\ allDigits h = true.

(** The kinds of validation error, read off the message. *)
Inductive ErrorKind :=
| InputNotFound
| UnsupportedFormat
| UnsupportedCodec
| UnsupportedQuality
| InvalidResolution.

Definition kindOf (msg : string) : option ErrorKind :=
  if HasPrefix msg "input file does not exist: " then Some InputNotFound
  else if HasPrefix msg "unsupported format: " then Some UnsupportedFormat
  else if HasPrefix msg "unsupported codec: " then Some UnsupportedCodec
  else if HasPrefix msg "unsupported quality: " then Some UnsupportedQuality
  else if HasPrefix msg "invalid resolution: " then Some InvalidResolution
  else None.

(** The rules of validation, and the rule a rejection of each kind
    reports: the first one broken, in the order they are checked. *)
Section Rules.
Variable stat : string -> StatResult.
Variable opts : Options.

Definition missing : Prop := stat (Input opts) = StatNotExist.
Definition okFormat : Prop :=
  Format opts = "" \/ In (Format opts) formats.
Definition okCodec : Prop :=
  Codec opts = "" \/ In (Codec opts) codecs.
Definition okQuality : Prop :=
  OQuality opts = "" \/ In (OQuality opts) qualities.
Definition okResolution : Prop :=
  Resolution opts = "" \/ In (Resolution opts) resolutions
  \/ DimensionPattern (Resolution opts).

Definition violated (k : ErrorKind) : Prop :=
  match k with
  | InputNotFound => missing
  | UnsupportedFormat => ~ missing /\ ~ okFormat
  | UnsupportedCodec => ~ missing /\ okFormat /\ ~ okCodec
  | UnsupportedQuality => ~ missing /\ okFormat /\ okCodec /\ ~ okQuality
  | InvalidResolution =>
      ~ missing /\ okFormat /\ okCodec /\ okQuality /\ ~ okResolution
  end.
End Rules.

(** A line carries a marker when [out_time_us=] followed by a digit
    occurs in it. *)
Definition HasMarker (line : string) : Prop :=
  exists pre d tl : string,
    line = pre +:+ timeMarker +:+ d +:+ tl /\ d <> "" /\ allDigits d = true.

Definition startsWithDigit (s : string) : bool :=
  match s with
  | EmptyString => false
  | String c _ => isDigit c
  end.

(** The marker of a line is the leftmost one, with all the digits that
    follow [out_time_us=]: [MarkerOf line ds] says its digits are [ds]. *)
Definition MarkerOf (line ds : string) : Prop :=
  exists pre tl : string,
    line = pre +:+ timeMarker +:+ ds +:+ tl
    /\ ds <> "" /\ allDigits ds = true
    /\ startsWithDigit tl = false
    /\ forall pre' d' tl',
         line = pre' +:+ timeMarker +:+ d' +:+ tl' ->
         d' <> "" -> allDigits d' = true ->
         (String.length pre <= String.length pre')%nat.

End Spec.

(** ** The [convert] command *)

Definition newline : string := String "010"%char "".

(** The arrow of the messages, in UTF-8. *)
Definition arrow : string :=
  String "226"%char (String "134"%char (String "146"%char "")).

(** [CheckFFmpeg].  [exec.LookPath] gives the path of a program, or
    [None] for its error. *)
Definition CheckFFmpeg (lookPath : string -> option string) : option string :=
  match lookPath "ffmpeg" with
  | Some _ => None
  | None =>
      Some ("ffmpeg not found in PATH. Install it:" +:+ newline
            +:+ "  macOS:  brew install ffmpeg" +:+ newline
            +:+ "  Ubuntu: sudo apt install ffmpeg" +:+ newline
            +:+ "  Windows: https://ffmpeg.org/download.html")
  end.

(** The machine the command runs on. *)
Record Host := mkHost {
  lookPath : string -> option string;
  hostStat : string -> StatResult;
  world : World
}.

(** The flags of the command, [""] when not given. *)
Record Flags := mkFlags {
  flagOutput : string;
  flagFormat : string;
  flagQuality : string;
  flagResolution : string;
  flagCodec : string
}.

(** What the command prints before it converts. *)
Definition header (opts : Options) : string :=
  "Converting: " +:+ Input opts +:+ " " +:+ arrow +:+ " " +:+ Output opts
  +:+ newline
  +:+ "Format: " +:+ Format opts +:+ " | Quality: " +:+ OQuality opts
  +:+ (if negb (isEmpty (Resolution opts))
       then " | Resolution: " +:+ Resolution opts else "")
  +:+ (if negb (isEmpty (Codec opts))
       then " | Codec: " +:+ Codec opts else "")
  +:+ newline.

(** A run of the command: what it printed before converting, the
    conversion if it got that far, what [RunE] returns, and whether it
    finished the bar and printed the closing line. *)
Record Command (St : Type) := mkCommand {
  printed : string;
  conversion : option (Run St);
  returned : Outcome;
  finished : bool
}.
Arguments mkCommand {St}.
Arguments printed {St}.
Arguments conversion {St}.
Arguments returned {St}.
Arguments finished {St}.

(** [RunE] of the [convert] command, on its one positional argument.
    The progress bar is the state [St] of the callback [bar], which
    stands for [bar.Set(int(percent))].  The closing line, made of the
    elapsed time and the size of the output file, is not spelled out. *)
Definition RunE {St} (h : Host) (flags : Flags) (arg : string)
    (bar : ProgressFunc St) (st : St) : Command St :=
  match CheckFFmpeg (lookPath h) with
  | Some e => mkCommand "" None (Returned (Some e)) false
  | None =>
      let opts :=
        ResolveOutput
          (mkOptions arg (flagOutput flags) (flagFormat flags)
             (flagQuality flags) (flagResolution flags) (flagCodec flags)) in
      match ValidateOptions (hostStat h) opts with
      | Some e => mkCommand "" None (Returned (Some e)) false
      | None =>
          let r := Convert (world h) opts (Some bar) st in
          match outcome r with
          | Returned None => mkCommand (header opts) (Some r) (Returned None) true
          | failed => mkCommand (header opts) (Some r) failed false
          end
      end
  end.

(** * Properties *)

(** ** Evaluating the model *)

Example resolve_clip :
  ResolveOutput (mkOptions "in.mov" "clip.mkv" "" "" "" "")
  = mkOptions "in.mov" "clip.mkv" "mkv" "medium" "" "".
Proof. reflexivity. Qed.

Example resolve_movie :
  ResolveOutput (mkOptions "movie.mov" "" "webm" "" "" "")
  = mkOptions "movie.mov" "movie_converted.webm" "webm" "medium" "" "".
Proof. reflexivity. Qed.

Example build_low :
  buildFFmpegArgs (ResolveOutput (mkOptions "a.mov" "" "" "low" "" ""))
  = Some ["-i"; "a.mov"; "-y"; "-progress"; "pipe:2"; "-nostats";
          "-c:v"; "libx264"; "-crf"; "28"; "-c:a"; "aac"; "-b:a"; "128k";
          "a_converted.mp4"].
Proof. vm_compute. reflexivity. Qed.

Example build_webm_720 :
  buildFFmpegArgs (mkOptions "a.mp4" "o.webm" "webm" "lossless" "720p" "")
  = Some ["-i"; "a.mp4"; "-y"; "-progress"; "pipe:2"; "-nostats";
          "-c:v"; "libvpx-vp9"; "-crf"; "0"; "-b:v"; "0";
          "-c:a"; "aac"; "-b:a"; "128k"; "-vf"; "scale=-2:720"; "o.webm"].
Proof. vm_compute. reflexivity. Qed.

Example build_dims :
  buildFFmpegArgs (mkOptions "a.mp4" "o.mp4" "mp4" "high" "1920x1080" "h265")
  = Some ["-i"; "a.mp4"; "-y"; "-progress"; "pipe:2"; "-nostats";
          "-c:v"; "libx265"; "-crf"; "18"; "-c:a"; "aac"; "-b:a"; "128k";
          "-vf"; "scale=1920:1080"; "o.mp4"].
Proof. vm_compute. reflexivity. Qed.

Example build_panics :
  buildFFmpegArgs (mkOptions "a.mp4" "o.mp4" "mp4" "high" "big" "") = None.
Proof. vm_compute. reflexivity. Qed.

Example progress_25_50 :
  parseProgress ["frame=10"; "out_time_us=5000000"; "speed=1x";
                 "out_time_us=10000000"] (20 * Second) record []
  = [of_int64 25; of_int64 50].
Proof. vm_compute. reflexivity. Qed.

Example progress_clamped :
  parseProgress ["out_time_us=30000000"] (20 * Second) record [] = [hundred].
Proof. vm_compute. reflexivity. Qed.

Example validate_rejects_flv :
  ValidateOptions (fun _ => StatOk) (mkOptions "a.mov" "" "flv" "" "" "")
    ≫= Spec.kindOf = Some Spec.UnsupportedFormat.
Proof. vm_compute. reflexivity. Qed.

Example validate_rejects_av1 :
  ValidateOptions (fun _ => StatOk) (mkOptions "a.mov" "" "" "" "" "av1")
    ≫= Spec.kindOf = Some Spec.UnsupportedCodec.
Proof. vm_compute. reflexivity. Qed.

Example validate_rejects_ultra :
  ValidateOptions (fun _ => StatOk) (mkOptions "a.mov" "" "" "ultra" "" "")
    ≫= Spec.kindOf = Some Spec.UnsupportedQuality.
Proof. vm_compute. reflexivity. Qed.

Example validate_rejects_big :
  ValidateOptions (fun _ => StatOk) (mkOptions "a.mov" "" "" "" "big" "")
    ≫= Spec.kindOf = Some Spec.InvalidResolution.
Proof. vm_compute. reflexivity. Qed.

Example validate_rejects_missing :
  ValidateOptions (fun _ => StatNotExist) (mkOptions "a.mov" "" "flv" "" "" "")
    ≫= Spec.kindOf = Some Spec.InputNotFound.
Proof. vm_compute. reflexivity. Qed.

(** 25 and 100 at type [float64]: mantissa and exponent. *)
Example float64_25 :
  of_int64 25 = S754_finite false (Z.to_pos (25 * 2 ^ 48)) (-48).
Proof. vm_compute. reflexivity. Qed.

Example float64_100 :
  hundred = S754_finite false (Z.to_pos (25 * 2 ^ 48)) (-46).
Proof. vm_compute. reflexivity. Qed.

Example progress_wraps :
  wrap64 (9223372036854776 * Microsecond) = -9223372036854775616.
Proof. reflexivity. Qed.

(** ** Splitting paths *)

Lemma Split_nonempty s sep : Split s sep <> [].
Proof.
  destruct s as [|c rest]; simpl; [discriminate|].
  destruct (Ascii.eqb c sep); [discriminate|].
  destruct (Split rest sep); discriminate.
Qed.

Lemma last_cons_nonempty {A} (x : A) l d : l <> [] -> List.last (x :: l) d = List.last l d.
Proof. destruct l; [congruence|reflexivity]. Qed.

(** [Split] at ["."] against the text after the last dot. *)
Lemma Split_dot_afterLastDot s :
  match Spec.afterLastDot s with
  | Some e => (1 < List.length (Split s "."))%nat /\ List.last (Split s ".") "" = e
  | None => Split s "." = [s]
  end.
Proof.
  induction s as [|c rest IH]; [reflexivity|].
  cbn [Split Spec.afterLastDot].
  destruct (Spec.afterLastDot rest) as [e|].
  - destruct IH as [Hlen Hlast].
    destruct (Ascii.eqb c ".").
    + split; [cbn [List.length]; lia|].
      rewrite last_cons_nonempty by apply Split_nonempty. exact Hlast.
    + destruct (Split rest ".") as [|piece [|p2 pieces]]; cbn [List.length] in *; try lia.
      split; [lia|]. exact Hlast.
  - rewrite IH. destruct (Ascii.eqb c "."); [|reflexivity].
    split; [cbn; lia|reflexivity].
Qed.

Lemma getExtension_spec s : getExtension s = default "" (Spec.afterLastDot s).
Proof.
  unfold getExtension. pose proof (Split_dot_afterLastDot s) as H.
  destruct (Spec.afterLastDot s) as [e|].
  - destruct H as [Hlen Hlast]. apply Nat.ltb_lt in Hlen. rewrite Hlen. exact Hlast.
  - rewrite H. reflexivity.
Qed.
Lemma app_cons (c : ascii) (a b : string) :
  String c a +:+ b = String c (a +:+ b).
Proof. reflexivity. Qed.

Lemma length_app (a b : string) :
  String.length (a +:+ b) = (String.length a + String.length b)%nat.
Proof. induction a as [|c a IH]; simpl; [reflexivity|]. now rewrite IH. Qed.

Lemma substring_all (s : string) : substring 0 (String.length s) s = s.
Proof. induction s as [|c s IH]; simpl; [reflexivity|]. now rewrite IH. Qed.

Lemma substring_app_drop (a b : string) :
  substring (String.length a) (String.length b) (a +:+ b) = b.
Proof. induction a as [|c a IH]; simpl; [apply substring_all|exact IH]. Qed.

Lemma substring_app_take (a b : string) :
  substring 0 (String.length a) (a +:+ b) = a.
Proof.
  induction a as [|c a IH]; simpl; [now destruct b|]. now rewrite IH.
Qed.

Lemma HasSuffix_app (a suf : string) : HasSuffix (a +:+ suf) suf = true.
Proof.
  unfold HasSuffix. rewrite length_app.
  replace (String.length a + String.length suf - String.length suf)%nat
    with (String.length a) by lia.
  rewrite substring_app_drop, String.eqb_refl, andb_true_r.
  apply Nat.leb_le. lia.
Qed.

Lemma TrimSuffix_app (a suf : string) : TrimSuffix (a +:+ suf) suf = a.
Proof.
  unfold TrimSuffix. rewrite HasSuffix_app, length_app.
  replace (String.length a + String.length suf - String.length suf)%nat
    with (String.length a) by lia.
  apply substring_app_take.
Qed.

Lemma substring_split (n : nat) (s : string) :
  (n <= String.length s)%nat ->
  s = substring 0 n s +:+ substring n (String.length s - n) s.
Proof.
  revert s. induction n as [|n IH]; intros s Hn.
  - simpl. rewrite Nat.sub_0_r, substring_all. now destruct s.
  - destruct s as [|c s]; simpl in *; [lia|].
    change (String c s = String c (substring 0 n s +:+ substring n (String.length s - n) s)).
    f_equal. apply IH. lia.
Qed.

Lemma HasSuffix_inv (s suf : string) :
  HasSuffix s suf = true -> exists a, s = a +:+ suf.
Proof.
  unfold HasSuffix. intros [Hlen Heq]%andb_true_iff.
  apply Nat.leb_le in Hlen. apply String.eqb_eq in Heq.
  exists (substring 0 (String.length s - String.length suf) s).
  pose proof (substring_split (String.length s - String.length suf) s) as H.
  replace (String.length s - (String.length s - String.length suf))%nat
    with (String.length suf) in H by lia.
  rewrite Heq in H. apply H. lia.
Qed.

Lemma afterLastDot_app_dot (a b : string) :
  Spec.afterLastDot (a +:+ String "." b) <> None.
Proof.
  induction a as [|c a IH]; simpl.
  - destruct (Spec.afterLastDot b); discriminate.
  - destruct (Spec.afterLastDot (a +:+ String "." b)); [discriminate|contradiction].
Qed.

Lemma stem_nodot (s : string) : Spec.afterLastDot s = None -> Spec.stem s = s.
Proof.
  destruct s as [|c s]; simpl; [reflexivity|].
  destruct (Spec.afterLastDot s); [discriminate|].
  destruct (Ascii.eqb c "."); [discriminate|reflexivity].
Qed.

Lemma stem_ext (s e : string) :
  Spec.afterLastDot s = Some e -> s = Spec.stem s +:+ "." +:+ e.
Proof.
  induction s as [|c s IH]; simpl; [discriminate|].
  destruct (Spec.afterLastDot s) as [e'|].
  - intros [= <-]. rewrite app_cons. f_equal. now apply IH.
  - destruct (Ascii.eqb_spec c "."); [|discriminate].
    intros [= <-]. subst c. reflexivity.
Qed.

(** Removing ["." + getExtension] is removing the last dot and what follows. *)
Lemma TrimSuffix_getExtension (s : string) :
  TrimSuffix s ("." +:+ getExtension s) = Spec.stem s.
Proof.
  rewrite getExtension_spec.
  destruct (Spec.afterLastDot s) as [e|] eqn:E; simpl default.
  - rewrite (stem_ext s e E) at 1. apply TrimSuffix_app.
  - rewrite (stem_nodot s E). unfold TrimSuffix.
    destruct (HasSuffix s ("." +:+ "")) eqn:H; [|reflexivity].
    apply HasSuffix_inv in H as [a ->].
    now destruct (afterLastDot_app_dot a "").
Qed.

Lemma isEmpty_true (s : string) : isEmpty s = true <-> s = "".
Proof. apply String.eqb_eq. Qed.

Lemma isEmpty_false (s : string) : isEmpty s = false <-> s <> "".
Proof. apply String.eqb_neq. Qed.

Ltac fields :=
  unfold set_Format, set_Output, set_Quality;
  cbn [Output Format Input OQuality Resolution Codec].

(** The resolver computes the four steps of the specification. *)
Lemma ResolveOutput_resolve (o : Options) : ResolveOutput o = Spec.resolve o.
Proof.
  destruct o as [i out f q r c].
  unfold ResolveOutput, Spec.resolve. fields.
  pose proof (Split_dot_afterLastDot out) as Hs.
  destruct (isEmpty out) eqn:Eo, (isEmpty f) eqn:Ef; cbn [negb andb]; fields;
    rewrite ?Eo, ?Ef; fields; rewrite ?Eo, ?Ef, ?TrimSuffix_getExtension;
    fields; try (destruct (isEmpty q); reflexivity).
  destruct (Spec.afterLastDot out) as [e|]; simpl default.
  - destruct Hs as [Hlen Hlast]. apply Nat.ltb_lt in Hlen. rewrite Hlen, Hlast.
    fields. destruct (isEmpty e); fields; rewrite Eo; fields;
      destruct (isEmpty q); reflexivity.
  - rewrite Hs. cbn [List.length Nat.ltb Nat.leb]. fields.
    rewrite Ef. cbn [isEmpty String.eqb]. fields. rewrite Eo. fields.
    destruct (isEmpty q); reflexivity.
Qed.

(** *** The tables against the enumerations of the specification *)

Ltac table_cases :=
  unfold index_or, has_key, crfMap, supportedFormats, codecMap,
    resolutionPresets, scalePresets,
    QualityLow, QualityMedium, QualityHigh, QualityLossless;
  rewrite ?lookup_insert, ?lookup_empty;
  repeat case_decide; subst; cbn [default].

Lemma supportedFormats_spec (f : string) :
  index_or false supportedFormats f = true <-> In f Spec.formats.
Proof.
  unfold Spec.formats. table_cases; cbn [In]; split; intros Hin;
    try reflexivity; try discriminate; try tauto; intuition congruence.
Qed.

Lemma codecMap_spec (c : string) :
  has_key codecMap c = true <-> In c Spec.codecs.
Proof.
  unfold Spec.codecs. table_cases; cbn [In]; split; intros Hin;
    try reflexivity; try discriminate; try tauto; intuition congruence.
Qed.

Lemma crfMap_spec (q : string) :
  has_key crfMap q = true <-> In q Spec.qualities.
Proof.
  unfold Spec.qualities. table_cases; cbn [In]; split; intros Hin;
    try reflexivity; try discriminate; try tauto; intuition congruence.
Qed.

Lemma resolutionPresets_spec (r : string) :
  index_or false resolutionPresets r = true <-> In r Spec.resolutions.
Proof.
  unfold Spec.resolutions. table_cases; cbn [In]; split; intros Hin;
    try reflexivity; try discriminate; try tauto; intuition congruence.
Qed.

Lemma crfMap_preset (p : Spec.Preset) :
  crfMap !! Spec.presetName p = Some (Spec.rateFactor p).
Proof. destruct p; reflexivity. Qed.

Lemma codecMap_codec (c : Spec.CodecName) :
  codecMap !! Spec.codecName c = Some (Spec.library c).
Proof. destruct c; reflexivity. Qed.

Lemma codecMap_unknown (c : string) :
  ~ In c Spec.codecs -> codecMap !! c = None.
Proof.
  intros H. destruct (codecMap !! c) eqn:E; [|reflexivity].
  exfalso. apply H, codecMap_spec. unfold has_key. now rewrite E.
Qed.

Lemma crfMap_unknown (q : string) :
  ~ In q Spec.qualities -> crfMap !! q = None.
Proof.
  intros H. destruct (crfMap !! q) eqn:E; [|reflexivity].
  exfalso. apply H, crfMap_spec. unfold has_key. now rewrite E.
Qed.

(** *** Digit runs and the dimension pattern *)

Lemma spanDigits_app (s : string) :
  s = fst (spanDigits s) +:+ snd (spanDigits s).
Proof.
  induction s as [|c s IH]; [reflexivity|]. cbn [spanDigits].
  destruct (isDigit c); [|reflexivity].
  destruct (spanDigits s) as [ds tl]. cbn [fst snd] in *.
  rewrite app_cons. now f_equal.
Qed.

Lemma spanDigits_digits (s : string) : allDigits (fst (spanDigits s)) = true.
Proof.
  induction s as [|c s IH]; [reflexivity|]. cbn [spanDigits].
  destruct (isDigit c) eqn:Ec; [|reflexivity].
  destruct (spanDigits s) as [ds tl]. cbn [fst allDigits] in *.
  now rewrite Ec, IH.
Qed.

Lemma spanDigits_stop (w : string) (c : ascii) (tl : string) :
  allDigits w = true -> isDigit c = false ->
  spanDigits (w +:+ String c tl) = (w, String c tl).
Proof.
  intros Hw Hc. induction w as [|a w IH].
  - change (spanDigits (String c tl) = ("", String c tl)).
    cbn [spanDigits]. now rewrite Hc.
  - cbn [allDigits] in Hw. apply andb_true_iff in Hw as [Ha Hw].
    rewrite app_cons. cbn [spanDigits]. rewrite Ha, (IH Hw). reflexivity.
Qed.

Lemma spanDigits_all (w : string) :
  allDigits w = true -> spanDigits w = (w, "").
Proof.
  induction w as [|a w IH]; [reflexivity|]. cbn [allDigits spanDigits].
  intros [Ha Hw]%andb_true_iff. now rewrite Ha, (IH Hw).
Qed.

Lemma matchDimension_spec (res : string) :
  matchDimension res = true <-> Spec.DimensionPattern res.
Proof.
  unfold matchDimension, Spec.DimensionPattern. split.
  - pose proof (spanDigits_app res) as Happ.
    pose proof (spanDigits_digits res) as Hdig.
    destruct (spanDigits res) as [w tl]. cbn [fst snd] in *.
    intros [Hw Htl]%andb_true_iff.
    destruct tl as [|c h]; [discriminate|].
    apply andb_true_iff in Htl as [[Hc Hh]%andb_true_iff Hd].
    apply Ascii.eqb_eq in Hc. subst c.
    exists w, h. repeat split; try assumption.
    + now apply isEmpty_false, negb_true_iff.
    + now apply isEmpty_false, negb_true_iff.
  - intros (w & h & -> & Hw & Hh & Dw & Dh).
    change (w +:+ "x" +:+ h) with (w +:+ String "x" h).
    rewrite (spanDigits_stop w "x" h Dw eq_refl).
    apply isEmpty_false in Hw, Hh. rewrite Hw, Hh, Dh. reflexivity.
Qed.

Lemma isValidResolution_spec (res : string) :
  isValidResolution res = true
  <-> In res Spec.resolutions \/ Spec.DimensionPattern res.
Proof.
  unfold isValidResolution.
  rewrite <- resolutionPresets_spec, <- matchDimension_spec.
  destruct (index_or false resolutionPresets res); intuition congruence.
Qed.

(** *** Validation *)

Section Validation.
Variable stat : string -> StatResult.
Variable opts : Options.

Local Abbreviation missing := (Spec.missing stat opts).
Local Abbreviation okFormat := (Spec.okFormat opts).
Local Abbreviation okCodec := (Spec.okCodec opts).
Local Abbreviation okQuality := (Spec.okQuality opts).
Local Abbreviation okResolution := (Spec.okResolution opts).
Local Abbreviation violated := (Spec.violated stat opts).

Lemma IsNotExist_missing : IsNotExist (stat (Input opts)) = true <-> missing.
Proof. unfold Spec.missing. destruct (stat (Input opts)); cbn; intuition congruence. Qed.

Lemma set_and_not (s : string) (b : bool) (P : Prop) :
  (b = true <-> P) ->
  negb (isEmpty s) && negb b = false <-> (s = "" \/ P).
Proof.
  intros HP. destruct (isEmpty s) eqn:E.
  - apply isEmpty_true in E. cbn. intuition.
  - apply isEmpty_false in E. cbn [negb andb].
    rewrite negb_false_iff. intuition.
Qed.

Lemma format_check :
  negb (isEmpty (Format opts))
  && negb (index_or false supportedFormats (Format opts)) = false
  <-> okFormat.
Proof. apply set_and_not, supportedFormats_spec. Qed.

Lemma codec_check :
  negb (isEmpty (Codec opts)) && negb (has_key codecMap (Codec opts)) = false
  <-> okCodec.
Proof. apply set_and_not, codecMap_spec. Qed.

Lemma quality_check :
  negb (isEmpty (OQuality opts)) && negb (has_key crfMap (OQuality opts)) = false
  <-> okQuality.
Proof. apply set_and_not, crfMap_spec. Qed.

Lemma resolution_check :
  negb (isEmpty (Resolution opts))
  && negb (isValidResolution (Resolution opts)) = false
  <-> okResolution.
Proof. apply set_and_not, isValidResolution_spec. Qed.

Ltac checks :=
  repeat match goal with
  | H : IsNotExist _ = true |- _ => apply IsNotExist_missing in H
  | H : IsNotExist _ = false |- _ =>
      apply not_true_iff_false in H; rewrite IsNotExist_missing in H
  | H : _ && _ = false |- _ =>
      first [ apply format_check in H | apply codec_check in H
            | apply quality_check in H | apply resolution_check in H ]
  | H : _ && _ = true |- _ =>
      apply not_false_iff_true in H;
      first [ rewrite format_check in H | rewrite codec_check in H
            | rewrite quality_check in H | rewrite resolution_check in H ]
  end.

(** Validation accepts exactly the requests that break no rule. *)
Lemma ValidateOptions_None :
  ValidateOptions stat opts = None
  <-> ~ missing /\ okFormat /\ okCodec /\ okQuality /\ okResolution.
Proof.
  unfold ValidateOptions.
  destruct (IsNotExist _) eqn:E0; [checks; intuition discriminate|].
  destruct (negb (isEmpty (Format opts)) && _) eqn:E1;
    [checks; intuition discriminate|].
  destruct (negb (isEmpty (Codec opts)) && _) eqn:E2;
    [checks; intuition discriminate|].
  destruct (negb (isEmpty (OQuality opts)) && _) eqn:E3;
    [checks; intuition discriminate|].
  destruct (negb (isEmpty (Resolution opts)) && _) eqn:E4;
    checks; intuition discriminate.
Qed.

(** Every rejection carries the kind of the first rule it breaks. *)
Lemma ValidateOptions_Some (msg : string) :
  ValidateOptions stat opts = Some msg ->
  exists k, Spec.kindOf msg = Some k /\ violated k.
Proof.
  unfold ValidateOptions.
  destruct (IsNotExist _) eqn:E0.
  { intros [= <-]. exists Spec.InputNotFound. checks. split; [reflexivity|unfold Spec.violated; tauto]. }
  destruct (negb (isEmpty (Format opts)) && _) eqn:E1.
  { intros [= <-]. exists Spec.UnsupportedFormat. checks. split; [reflexivity|unfold Spec.violated; tauto]. }
  destruct (negb (isEmpty (Codec opts)) && _) eqn:E2.
  { intros [= <-]. exists Spec.UnsupportedCodec. checks. split; [reflexivity|unfold Spec.violated; tauto]. }
  destruct (negb (isEmpty (OQuality opts)) && _) eqn:E3.
  { intros [= <-]. exists Spec.UnsupportedQuality. checks. split; [reflexivity|unfold Spec.violated; tauto]. }
  destruct (negb (isEmpty (Resolution opts)) && _) eqn:E4; [|discriminate].
  intros [= <-]. exists Spec.InvalidResolution. checks. split; [reflexivity|unfold Spec.violated; tauto].
Qed.
End Validation.

(** *** The argument builder *)

(** The scale arguments the builder appends, [None] when it panics. *)
Lemma buildFFmpegArgs_unfold (opts : Options) :
  buildFFmpegArgs opts =
    scale ← (if isEmpty (Resolution opts) then Some []
             else s ← resolveScale (Resolution opts); Some ["-vf"; s]);
    Some (["-i"; Input opts; "-y"; "-progress"; "pipe:2"; "-nostats";
           "-c:v"; chosenCodec opts;
           "-crf"; Itoa (index_or 0 crfMap (OQuality opts))]
          ++ (if Contains (chosenCodec opts) "vpx" then ["-b:v"; "0"] else [])
          ++ ["-c:a"; "aac"; "-b:a"; "128k"] ++ scale ++ [Output opts])%list.
Proof.
  unfold buildFFmpegArgs.
  destruct (isEmpty (Resolution opts)); cbn [negb];
    [|destruct (resolveScale (Resolution opts))]; cbn [mbind option_bind];
    destruct (Contains (chosenCodec opts) "vpx"); reflexivity.
Qed.

Lemma Split_no_sep (w : string) (sep : ascii) :
  (forall pre tl, w <> pre +:+ String sep tl) -> Split w sep = [w].
Proof.
  induction w as [|c w IH]; intros H; [reflexivity|]. cbn [Split].
  destruct (Ascii.eqb_spec c sep) as [->|Hc].
  - now destruct (H "" w).
  - rewrite IH; [reflexivity|].
    intros pre tl ->. now apply (H (String c pre) tl).
Qed.

Lemma allDigits_no_x (w pre tl : string) :
  allDigits w = true -> w <> pre +:+ String "x" tl.
Proof.
  intros Hw ->. induction pre as [|c pre IH].
  - discriminate.
  - rewrite app_cons in Hw. cbn [allDigits] in Hw.
    apply andb_true_iff in Hw as [_ Hw]. auto.
Qed.

Lemma Split_x_digits (w : string) : allDigits w = true -> Split w "x" = [w].
Proof. intros Hw. apply Split_no_sep. intros pre tl. now apply allDigits_no_x. Qed.

Lemma Split_x_dimension (w h : string) :
  allDigits w = true -> allDigits h = true ->
  Split (w +:+ "x" +:+ h) "x" = [w; h].
Proof.
  intros Hw Hh. induction w as [|c w IH].
  - change (Split (String "x" h) "x" = [""; h]). cbn [Split].
    rewrite Ascii.eqb_refl, (Split_x_digits h Hh). reflexivity.
  - cbn [allDigits] in Hw. apply andb_true_iff in Hw as [Hc Hw].
    rewrite app_cons. cbn [Split]. rewrite (IH Hw).
    destruct (Ascii.eqb_spec c "x") as [->|_]; [discriminate|reflexivity].
Qed.

(** The two tables of presets have the same keys. *)
Lemma scalePresets_keys (res : string) :
  scalePresets !! res = None -> index_or false resolutionPresets res = false.
Proof. table_cases; intros; congruence. Qed.

Lemma scalePresets_dimension (res : string) :
  matchDimension res = true -> scalePresets !! res = None.
Proof. table_cases; intros; try reflexivity; discriminate. Qed.

(** A dimension [WxH] gives [scale=W:H]. *)
Lemma resolveScale_dimension (w h : string) :
  w <> "" -> h <> "" -> allDigits w = true -> allDigits h = true ->
  resolveScale (w +:+ "x" +:+ h) = Some ("scale=" +:+ w +:+ ":" +:+ h).
Proof.
  intros Hw Hh Dw Dh. unfold resolveScale.
  rewrite scalePresets_dimension.
  - rewrite Split_x_dimension by assumption. reflexivity.
  - apply matchDimension_spec. now exists w, h.
Qed.

(** [resolveScale] returns on every resolution that validation accepts. *)
Lemma resolveScale_valid (res : string) :
  isValidResolution res = true -> is_Some (resolveScale res).
Proof.
  intros Hv. destruct (scalePresets !! res) as [s|] eqn:E.
  - unfold resolveScale. rewrite E. eauto.
  - unfold isValidResolution in Hv. rewrite (scalePresets_keys res E) in Hv.
    apply matchDimension_spec in Hv as (w & h & -> & Hw & Hh & Dw & Dh).
    rewrite resolveScale_dimension by assumption. eauto.
Qed.

Lemma okResolution_valid (opts : Options) :
  Spec.okResolution opts
  <-> Resolution opts = "" \/ isValidResolution (Resolution opts) = true.
Proof. unfold Spec.okResolution. now rewrite isValidResolution_spec. Qed.

(** The builder returns on every request whose resolution is acceptable,
    with the arguments in their fixed order. *)
Lemma buildFFmpegArgs_returns (opts : Options) :
  Spec.okResolution opts ->
  exists scale,
    buildFFmpegArgs opts =
      Some (["-i"; Input opts; "-y"; "-progress"; "pipe:2"; "-nostats";
             "-c:v"; chosenCodec opts;
             "-crf"; Itoa (index_or 0 crfMap (OQuality opts))]
            ++ (if Contains (chosenCodec opts) "vpx" then ["-b:v"; "0"] else [])
            ++ ["-c:a"; "aac"; "-b:a"; "128k"] ++ scale ++ [Output opts])%list.
Proof.
  intros Hr. rewrite buildFFmpegArgs_unfold.
  apply okResolution_valid in Hr as [Hr|Hr].
  - apply isEmpty_true in Hr. rewrite Hr. now exists [].
  - destruct (isEmpty (Resolution opts)); [now exists []|].
    destruct (resolveScale_valid _ Hr) as [s ->]. now exists ["-vf"; s].
Qed.

Lemma buildFFmpegArgs_shape (opts : Options) (args : list string) :
  buildFFmpegArgs opts = Some args ->
  exists scale,
    args = (["-i"; Input opts; "-y"; "-progress"; "pipe:2"; "-nostats";
             "-c:v"; chosenCodec opts;
             "-crf"; Itoa (index_or 0 crfMap (OQuality opts))]
            ++ (if Contains (chosenCodec opts) "vpx" then ["-b:v"; "0"] else [])
            ++ ["-c:a"; "aac"; "-b:a"; "128k"] ++ scale ++ [Output opts])%list.
Proof.
  rewrite buildFFmpegArgs_unfold.
  destruct (isEmpty (Resolution opts)); [|destruct (resolveScale _) as [s|]];
    cbn [mbind option_bind]; intros [= <-];
    [now exists [] | now exists ["-vf"; s]].
Qed.

Lemma Itoa_rateFactor (p : Spec.Preset) :
  Itoa (Spec.rateFactor p) = Spec.rateText p.
Proof. destruct p; reflexivity. Qed.

Lemma index_crfMap_preset (p : Spec.Preset) :
  index_or 0 crfMap (Spec.presetName p) = Spec.rateFactor p.
Proof. unfold index_or. now rewrite crfMap_preset. Qed.

Lemma chosenCodec_explicit (opts : Options) (c : Spec.CodecName) :
  Codec opts = Spec.codecName c -> chosenCodec opts = Spec.library c.
Proof.
  intros H. unfold chosenCodec, index_or. rewrite H, codecMap_codec.
  now destruct c.
Qed.

Lemma chosenCodec_webm (opts : Options) :
  Codec opts = "" -> Format opts = "webm" -> chosenCodec opts = Spec.library Spec.VP9.
Proof. intros H1 H2. unfold chosenCodec. now rewrite H1, H2. Qed.

Lemma chosenCodec_default (opts : Options) :
  Codec opts = "" -> Format opts <> "webm" ->
  chosenCodec opts = Spec.library Spec.H264.
Proof.
  intros H1 H2. unfold chosenCodec. rewrite H1. cbn [isEmpty String.eqb negb].
  apply String.eqb_neq in H2. now rewrite H2.
Qed.

Lemma chosenCodec_unknown (opts : Options) :
  Codec opts <> "" -> ~ In (Codec opts) Spec.codecs -> chosenCodec opts = "".
Proof.
  intros H1 H2. unfold chosenCodec, index_or.
  apply isEmpty_false in H1. rewrite H1. cbn [negb].
  now rewrite codecMap_unknown.
Qed.

Lemma index_crfMap_unknown (q : string) :
  ~ In q Spec.qualities -> index_or 0 crfMap q = 0.
Proof. intros H. unfold index_or. now rewrite crfMap_unknown. Qed.

(** *** The marker of a line *)

Lemma app_nil_r (s : string) : s +:+ "" = s.
Proof. induction s as [|c s IH]; [reflexivity|]. now rewrite app_cons, IH. Qed.

Lemma app_assoc (a b c : string) : (a +:+ b) +:+ c = a +:+ b +:+ c.
Proof. induction a as [|x a IH]; [reflexivity|]. now rewrite !app_cons, IH. Qed.

Lemma stripPrefix_spec (pre s tl : string) :
  stripPrefix pre s = Some tl <-> s = pre +:+ tl.
Proof.
  revert s. induction pre as [|a pre IH]; intros s.
  - change ("" +:+ tl) with tl. cbn [stripPrefix]. split; congruence.
  - destruct s as [|b s]; cbn [stripPrefix]; rewrite ?app_cons.
    + split; discriminate.
    + destruct (Ascii.eqb_spec a b) as [->|Hab].
      * rewrite IH. split; congruence.
      * split; [discriminate|congruence].
Qed.

Lemma stripPrefix_app (pre tl : string) : stripPrefix pre (pre +:+ tl) = Some tl.
Proof. now apply stripPrefix_spec. Qed.

Lemma spanDigits_rest (s : string) :
  Spec.startsWithDigit (snd (spanDigits s)) = false.
Proof.
  induction s as [|c s IH]; [reflexivity|]. cbn [spanDigits].
  destruct (isDigit c) eqn:Ec; [|exact Ec].
  now destruct (spanDigits s).
Qed.

Lemma spanDigits_greedy (ds tl : string) :
  allDigits ds = true -> Spec.startsWithDigit tl = false ->
  spanDigits (ds +:+ tl) = (ds, tl).
Proof.
  intros Hd Ht. destruct tl as [|c tl].
  - rewrite app_nil_r. now apply spanDigits_all.
  - now apply spanDigits_stop.
Qed.

Lemma spanDigits_nonempty (d tl : string) :
  d <> "" -> allDigits d = true -> fst (spanDigits (d +:+ tl)) <> "".
Proof.
  destruct d as [|c d]; [congruence|]. intros _ [Hc _]%andb_true_iff.
  rewrite app_cons. cbn [spanDigits]. rewrite Hc.
  now destruct (spanDigits (d +:+ tl)).
Qed.

Lemma timeRegexAt_Some (s : string) (m : list string) :
  timeRegexAt s = Some m ->
  exists ds tl,
    s = timeMarker +:+ ds +:+ tl /\ m = [timeMarker +:+ ds; ds]
    /\ ds <> "" /\ allDigits ds = true /\ Spec.startsWithDigit tl = false.
Proof.
  unfold timeRegexAt. destruct (stripPrefix timeMarker s) as [rest|] eqn:E;
    [|discriminate].
  apply stripPrefix_spec in E.
  destruct (isEmpty (fst (spanDigits rest))) eqn:En; [discriminate|].
  intros [= <-]. exists (fst (spanDigits rest)), (snd (spanDigits rest)).
  rewrite <- spanDigits_app. repeat split.
  - exact E.
  - now apply isEmpty_false.
  - apply spanDigits_digits.
  - apply spanDigits_rest.
Qed.

Lemma timeRegexAt_None (s d tl : string) :
  timeRegexAt s = None -> s = timeMarker +:+ d +:+ tl ->
  d <> "" -> allDigits d = true -> False.
Proof.
  unfold timeRegexAt. intros H -> Hd Hdig.
  rewrite stripPrefix_app in H.
  pose proof (spanDigits_nonempty d tl Hd Hdig) as Hn.
  apply isEmpty_false in Hn. now rewrite Hn in H.
Qed.

Lemma HasMarker_cons (c : ascii) (rest : string) :
  timeRegexAt (String c rest) = None ->
  Spec.HasMarker (String c rest) -> Spec.HasMarker rest.
Proof.
  intros Hn (pre & d & tl & E & Hd & Hdig).
  destruct pre as [|a pre].
  - now destruct (timeRegexAt_None _ d tl Hn E).
  - rewrite app_cons in E. injection E as _ E. now exists pre, d, tl.
Qed.

(** What [FindStringSubmatch] returns: nothing on a line without marker,
    and otherwise the match and the digits of the marker of the line. *)
Lemma FindStringSubmatch_sound (line : string) :
  (FindStringSubmatch line = [] /\ ~ Spec.HasMarker line)
  \/ exists ds,
       FindStringSubmatch line = [timeMarker +:+ ds; ds]
       /\ Spec.MarkerOf line ds.
Proof.
  induction line as [|c rest IH].
  - left. split; [reflexivity|].
    intros (pre & d & tl & E & _). destruct pre; discriminate.
  - cbn [FindStringSubmatch].
    destruct (timeRegexAt (String c rest)) as [m|] eqn:Em.
    + right. apply timeRegexAt_Some in Em as (ds & tl & E & -> & Hd & Hdig & Htl).
      exists ds. split; [reflexivity|]. exists "", tl.
      repeat split; try assumption. intros. cbn. lia.
    + destruct IH as [[Hf Hno]|(ds & Hf & pre & tl & E & Hd & Hdig & Htl & Hleft)].
      * left. split; [exact Hf|]. intros HM. now apply Hno, (HasMarker_cons c).
      * right. exists ds. split; [exact Hf|]. exists (String c pre), tl.
        rewrite app_cons, <- E. repeat split; try assumption.
        intros pre' d' tl' E' Hd' Hdig'. destruct pre' as [|a pre'].
        -- now destruct (timeRegexAt_None _ d' tl' Em E').
        -- rewrite app_cons in E'. injection E' as _ E'.
           cbn [String.length]. apply le_n_S. now apply (Hleft pre' d' tl').
Qed.

Lemma app_inv_length (a b a' b' : string) :
  a +:+ b = a' +:+ b' -> String.length a = String.length a' ->
  a = a' /\ b = b'.
Proof.
  revert a'. induction a as [|c a IH]; intros [|c' a']; try discriminate.
  - cbn. auto.
  - rewrite !app_cons. cbn [String.length].
    intros [= -> E] [= L]. destruct (IH a' E L) as [-> ->]. auto.
Qed.

Lemma MarkerOf_HasMarker (line ds : string) :
  Spec.MarkerOf line ds -> Spec.HasMarker line.
Proof. intros (pre & tl & E & Hd & Hdig & _). now exists pre, ds, tl. Qed.

(** A line has at most one marker in the sense of [MarkerOf]. *)
Lemma MarkerOf_unique (line ds ds' : string) :
  Spec.MarkerOf line ds -> Spec.MarkerOf line ds' -> ds = ds'.
Proof.
  intros (pre & tl & E & Hd & Hdig & Htl & Hleft)
         (pre' & tl' & E' & Hd' & Hdig' & Htl' & Hleft').
  pose proof (Hleft pre' ds' tl' E' Hd' Hdig') as L1.
  pose proof (Hleft' pre ds tl E Hd Hdig) as L2.
  rewrite E in E'. apply app_inv_length in E' as [_ E']; [|lia].
  apply (app_inv_length timeMarker _ timeMarker) in E' as [_ E']; [|reflexivity].
  pose proof (spanDigits_greedy ds tl Hdig Htl) as S1.
  pose proof (spanDigits_greedy ds' tl' Hdig' Htl') as S2.
  rewrite E' in S1. congruence.
Qed.

Lemma FindStringSubmatch_marker (line ds : string) :
  Spec.MarkerOf line ds ->
  FindStringSubmatch line = [timeMarker +:+ ds; ds].
Proof.
  intros HM. destruct (FindStringSubmatch_sound line) as [[_ Hno]|(ds' & Hf & HM')].
  - now destruct Hno; apply (MarkerOf_HasMarker line ds).
  - now rewrite (MarkerOf_unique _ _ _ HM HM').
Qed.



(** *** The matchers against the regular expressions *)

Lemma Matches_digits (s : string) :
  Spec.Matches (Spec.rPlus Spec.rDigit) s <-> s <> "" /\ allDigits s = true.
Proof.
  split.
  - intros H. remember (Spec.rPlus Spec.rDigit) as r eqn:Er.
    induction H as [| | | r s H _ | r s1 s2 H1 _ H2 IH]; try discriminate.
    + injection Er as ->. inversion H as [|c Hc| | |]; subst.
      split; [discriminate|]. cbn [allDigits]. now rewrite Hc.
    + injection Er as ->. inversion H1 as [|c Hc| | |]; subst.
      destruct (IH eq_refl) as [_ Hd]. rewrite app_cons.
      split; [discriminate|]. cbn [allDigits]. now rewrite Hc.
  - intros [Hne Hd]. induction s as [|c s IH]; [congruence|].
    cbn [allDigits] in Hd. apply andb_true_iff in Hd as [Hc Hs].
    destruct s as [|c' s'].
    + apply Spec.MPlusOne, Spec.MDigit, Hc.
    + change (String c (String c' s')) with (String c "" +:+ String c' s').
      apply Spec.MPlusMore; [apply Spec.MDigit, Hc|].
      apply IH; [discriminate|exact Hs].
Qed.

Lemma Matches_text (c : ascii) (s t : string) :
  Spec.Matches (Spec.rText c s) t <-> t = String c s.
Proof.
  revert c t. induction s as [|c' s IH]; intros c t; cbn [Spec.rText].
  - split.
    + intros H. now inversion H.
    + intros ->. constructor.
  - split.
    + intros H. inversion H as [| |r1 r2 s1 s2 H1 H2| |]; subst.
      inversion H1; subst. apply IH in H2. now subst.
    + intros ->. change (String c (String c' s)) with (String c "" +:+ String c' s).
      constructor; [constructor|]. now apply IH.
Qed.

(** [matchDimension] decides [^\d+x\d+$]. *)
Lemma DimensionPattern_regex (res : string) :
  Spec.DimensionPattern res <-> Spec.Matches Spec.dimensionRegex res.
Proof.
  unfold Spec.DimensionPattern, Spec.dimensionRegex. split.
  - intros (w & h & -> & Hw & Hh & Dw & Dh).
    constructor; [now apply Matches_digits|].
    change ("x" +:+ h) with (String "x" "" +:+ h).
    constructor; [constructor|now apply Matches_digits].
  - intros H. inversion H as [| |r1 r2 w s2 Hw H2| |]; subst.
    inversion H2 as [| |r1 r2 x h Hx Hh| |]; subst. inversion Hx; subst.
    apply Matches_digits in Hw as [Hw Dw]. apply Matches_digits in Hh as [Hh Dh].
    now exists w, h.
Qed.

Lemma matchDimension_regex (res : string) :
  matchDimension res = true <-> Spec.Matches Spec.dimensionRegex res.
Proof. now rewrite matchDimension_spec, DimensionPattern_regex. Qed.

(** The matches of [out_time_us=(\d+)] are the marker followed by digits. *)
Lemma timeRegex_matches (m : string) :
  Spec.Matches Spec.timeRegex m
  <-> exists d, m = timeMarker +:+ d /\ d <> "" /\ allDigits d = true.
Proof.
  unfold Spec.timeRegex. split.
  - intros H. inversion H as [| |r1 r2 s1 d H1 Hd| |]; subst.
    apply (proj1 (Matches_text "o" "ut_time_us=" s1)) in H1. subst s1.
    apply Matches_digits in Hd.
    now exists d.
  - intros (d & -> & Hd). change timeMarker with (String "o" "ut_time_us=").
    constructor; [now apply Matches_text|now apply Matches_digits].
Qed.

(** A line has a marker exactly when some part of it matches the
    expression. *)
Lemma HasMarker_regex (line : string) :
  Spec.HasMarker line
  <-> exists pre m tl,
        line = pre +:+ m +:+ tl /\ Spec.Matches Spec.timeRegex m.
Proof.
  unfold Spec.HasMarker. split.
  - intros (pre & d & tl & -> & Hd). exists pre, (timeMarker +:+ d), tl.
    split; [now rewrite !app_assoc|]. apply timeRegex_matches. now exists d.
  - intros (pre & m & tl & -> & H). apply timeRegex_matches in H as (d & -> & Hd).
    exists pre, d, tl. split; [now rewrite !app_assoc|exact Hd].
Qed.

(** *** Parsing the digits and running the loop *)

(** On a run of digits [ParseInt] fails exactly when the value does not
    fit an [int64]. *)
Lemma ParseInt_digits (ds : string) :
  ds <> "" -> allDigits ds = true ->
  ParseInt ds = if 2 ^ 63 <=? decimalValue 0 ds then None
                else Some (decimalValue 0 ds).
Proof.
  intros Hd Hdig. destruct ds as [|c r]; [congruence|].
  assert (Hbody : isEmpty (String c r) || negb (allDigits (String c r)) = false)
    by now rewrite Hdig.
  cbn [allDigits] in Hdig. apply andb_true_iff in Hdig as [Hc _].
  unfold ParseInt.
  destruct c as [[] [] [] [] [] [] [] []]; try discriminate Hc;
    rewrite Hbody; cbn [negb andb]; reflexivity.
Qed.



Lemma lineProgress_marker (total : Z) (line ds : string) :
  Spec.MarkerOf line ds ->
  lineProgress total line =
    match ParseInt ds with
    | None => None
    | Some us =>
        let raw :=
          mul (div (of_int64 (wrap64 (us * Microsecond))) (of_int64 total))
              hundred in
        Some (if gt raw hundred then hundred else raw)
    end.
Proof.
  intros H. unfold lineProgress.
  now rewrite (FindStringSubmatch_marker line ds H).
Qed.

(** The callback sees the percentages of the lines, in order. *)
Lemma parseProgress_percentages {St} (r : list string) (total : Z)
    (f : ProgressFunc St) (st : St) :
  parseProgress r total f st
  = fold_left (fun s p => f p s) (percentages total r) st.
Proof.
  revert st. induction r as [|line r IH]; intros st; [reflexivity|].
  cbn [parseProgress percentages].
  destruct (lineProgress total line); cbn [fold_left]; apply IH.
Qed.


Lemma parseProgress_record (r : list string) (total : Z) (log : list float64) :
  parseProgress r total record log = (log ++ percentages total r)%list.
Proof.
  rewrite parseProgress_percentages. revert log.
  induction (percentages total r) as [|p ps IH]; intros log; cbn [fold_left].
  - now rewrite List.app_nil_r.
  - rewrite IH. unfold record. now rewrite <- List.app_assoc.
Qed.


(** *** Rounding keeps the sign *)

Lemma iter_pos_invariant {A} (f : A -> A) (P : A -> Prop) :
  (forall x, P x -> P (f x)) -> forall n x, P x -> P (SpecFloat.iter_pos f n x).
Proof.
  intros Hf. induction n as [n IH|n IH|]; intros x Hx; cbn [SpecFloat.iter_pos]; auto.
Qed.

Lemma shr_1_nonneg (r : shr_record) : 0 <= shr_m r -> 0 <= shr_m (shr_1 r).
Proof.
  destruct r as [m b s]. cbn [shr_m shr_1].
  destruct m as [|[p|p|]|p]; cbn [shr_m]; lia.
Qed.

Lemma shr_nonneg (r : shr_record) (e n : Z) :
  0 <= shr_m r -> 0 <= shr_m (fst (shr r e n)).
Proof.
  intros H. unfold shr. destruct n as [|p|p]; cbn [fst]; try exact H.
  now apply (iter_pos_invariant shr_1 (fun r => 0 <= shr_m r) shr_1_nonneg).
Qed.

Lemma shr_m_of_loc (m : Z) (l : location) : shr_m (shr_record_of_loc m l) = m.
Proof. now destruct l as [|[]]. Qed.

Lemma shr_fexp_nonneg (m e : Z) (l : location) :
  0 <= m -> 0 <= shr_m (fst (shr_fexp prec emax m e l)).
Proof. intros H. unfold shr_fexp. apply shr_nonneg. now rewrite shr_m_of_loc. Qed.

Lemma round_nearest_even_nonneg (m : Z) (l : location) :
  0 <= m -> 0 <= round_nearest_even m l.
Proof.
  intros H. unfold round_nearest_even.
  destruct l as [|[]]; try destruct (Z.even m); lia.
Qed.





(** *** Comparing with a finite positive float *)



(** *** Digits and right shifts *)

Lemma digits2_pos_bounds (p : positive) :
  2 ^ (Zpos (digits2_pos p) - 1) <= Zpos p < 2 ^ Zpos (digits2_pos p).
Proof.
  induction p as [p IH|p IH|]; cbn [digits2_pos]; [| |cbn; lia].
  all: rewrite Pos2Z.inj_succ;
    replace (Z.succ (Zpos (digits2_pos p)) - 1) with (Zpos (digits2_pos p)) by lia;
    rewrite Z.pow_succ_r by lia;
    replace (2 ^ Zpos (digits2_pos p))
      with (2 * 2 ^ (Zpos (digits2_pos p) - 1)) in *
      by (rewrite <- Z.pow_succ_r by lia; f_equal; lia);
    lia.
Qed.

Lemma digits2_pos_le (p : positive) (k : Z) :
  Zpos p < 2 ^ k -> Zpos (digits2_pos p) <= k.
Proof.
  intros H. destruct (Z.le_gt_cases (Zpos (digits2_pos p)) k) as [|Hgt]; [assumption|].
  pose proof (digits2_pos_bounds p) as [Hlo _].
  assert (0 <= k).
  { destruct (Z.le_gt_cases 0 k) as [|Hneg]; [assumption|].
    rewrite Z.pow_neg_r in H by lia. lia. }
  assert (2 ^ k <= 2 ^ (Zpos (digits2_pos p) - 1))
    by (apply Z.pow_le_mono_r; lia).
  lia.
Qed.

Lemma digits2_pos_ge (p : positive) (k : Z) :
  2 ^ k <= Zpos p -> k + 1 <= Zpos (digits2_pos p).
Proof.
  intros H. destruct (Z.le_gt_cases (k + 1) (Zpos (digits2_pos p))) as [|Hgt]; [assumption|].
  pose proof (digits2_pos_bounds p) as [_ Hhi].
  assert (2 ^ Zpos (digits2_pos p) <= 2 ^ k)
    by (apply Z.pow_le_mono_r; lia).
  lia.
Qed.

Lemma digits2_pos_shl (p k : positive) :
  Zpos (digits2_pos (Pos.iter xO p k)) = Zpos (digits2_pos p) + Zpos k.
Proof.
  induction k as [|k IH] using Pos.peano_ind.
  - cbn [Pos.iter digits2_pos]. lia.
  - rewrite Pos.iter_succ. cbn [digits2_pos]. lia.
Qed.

Lemma shr_1_half (r : shr_record) :
  0 <= shr_m r -> shr_m (shr_1 r) = shr_m r / 2.
Proof.
  destruct r as [m b s]. cbn [shr_m shr_1].
  destruct m as [|[p|p|]|p]; cbn [shr_m]; intros H; try lia.
  all: try reflexivity.
  - apply (Z.div_unique _ _ _ 1); lia.
  - apply (Z.div_unique _ _ _ 0); lia.
Qed.

Lemma iter_shr_1 (n : positive) (r : shr_record) :
  0 <= shr_m r ->
  0 <= shr_m (SpecFloat.iter_pos shr_1 n r)
  /\ shr_m (SpecFloat.iter_pos shr_1 n r) = shr_m r / 2 ^ Zpos n.
Proof.
  revert r. induction n as [n IH|n IH|]; intros r Hr; cbn [SpecFloat.iter_pos].
  - pose proof (shr_1_nonneg r Hr) as H0. pose proof (shr_1_half r Hr) as E0.
    destruct (IH _ H0) as [H1 E1]. destruct (IH _ H1) as [H2 E2].
    split; [exact H2|]. rewrite E2, E1, E0.
    rewrite !Z.div_div by (try apply Z.pow_pos_nonneg; lia).
    f_equal. rewrite Pos2Z.inj_xI, Z.pow_add_r, Z.pow_twice_r by lia.
    change (2 ^ 1) with 2. ring.
  - destruct (IH _ Hr) as [H1 E1]. destruct (IH _ H1) as [H2 E2].
    split; [exact H2|]. rewrite E2, E1.
    rewrite Z.div_div by (try apply Z.pow_pos_nonneg; lia).
    f_equal. change (Zpos n~0) with (2 * Zpos n).
    rewrite Z.pow_twice_r by lia. ring.
  - split; [now apply shr_1_nonneg|]. now rewrite shr_1_half.
Qed.

Lemma shr_fexp_spec (m e : Z) (l : location) :
  0 <= m ->
  let n := Z.max 0 (fexp prec emax (Zdigits2 m + e) - e) in
  shr_fexp prec emax m e l
  = (fst (shr_fexp prec emax m e l), e + n)
  /\ shr_m (fst (shr_fexp prec emax m e l)) = m / 2 ^ n.
Proof.
  intros Hm n. subst n. unfold shr_fexp, shr.
  destruct (fexp prec emax (Zdigits2 m + e) - e) as [|p|p]; cbn [fst].
  - rewrite Z.add_0_r, shr_m_of_loc, Z.div_1_r. auto.
  - replace (Z.max 0 (Zpos p)) with (Zpos p) by lia. split; [reflexivity|].
    destruct (iter_shr_1 p (shr_record_of_loc m l)) as [_ E].
    + now rewrite shr_m_of_loc.
    + now rewrite E, shr_m_of_loc.
  - rewrite Z.add_0_r, shr_m_of_loc, Z.div_1_r. auto.
Qed.

Lemma div_pow2_bounds (m a k : Z) :
  0 <= k -> 0 <= a -> 2 ^ (a + k) <= m < 2 ^ (a + 1 + k) ->
  2 ^ a <= m / 2 ^ k < 2 ^ (a + 1).
Proof.
  intros Hk Ha [Hlo Hhi].
  assert (0 < 2 ^ k) by (apply Z.pow_pos_nonneg; lia).
  rewrite Z.pow_add_r in Hlo, Hhi by lia. split.
  - apply Z.div_le_lower_bound; lia.
  - apply Z.div_lt_upper_bound; lia.
Qed.

(** *** Rounding to nearest *)





(** The shape of a rounding in the normal range: the mantissa is cut to
    [prec] digits, moved to the nearest neighbour, and renormalized when
    that carries into the next binade. *)
Lemma binary_round_aux_normal (mz : positive) (ez : Z) (lx : location) :
  prec <= Zpos (digits2_pos mz) ->
  emin prec emax <= ez ->
  let n := Zpos (digits2_pos mz) - 53 in
  let r1 := fst (shr_fexp prec emax (Zpos mz) ez lx) in
  let m2 := round_nearest_even (shr_m r1) (loc_of_shr_record r1) in
  shr_m r1 = Zpos mz / 2 ^ n
  /\ 2 ^ 52 <= shr_m r1 < 2 ^ 53
  /\ shr_m r1 <= m2 <= shr_m r1 + 1
  /\ exists m3 e3,
       2 ^ 52 <= Zpos m3 < 2 ^ 53
       /\ ((e3 = ez + n /\ Zpos m3 = m2)
           \/ (e3 = ez + n + 1 /\ m2 = 2 ^ 53 /\ Zpos m3 = 2 ^ 52))
       /\ binary_round_aux prec emax false (Zpos mz) ez lx
          = if e3 <=? emax - prec then S754_finite false m3 e3
            else S754_infinity false.
Proof.
  intros Hd He n r1 m2. unfold binary_round_aux.
  pose proof (digits2_pos_bounds mz) as Hmz.
  set (dz := Zpos (digits2_pos mz)) in *.
  destruct (shr_fexp_spec (Zpos mz) ez lx) as [E1 M1]; [lia|].
  cbn [Zdigits2] in E1, M1. fold dz in E1, M1. fold r1 in E1, M1.
  assert (N1 : Z.max 0 (fexp prec emax (dz + ez) - ez) = n)
    by (subst n; unfold fexp, emin, prec, emax in *; lia).
  rewrite N1 in E1, M1. rewrite E1. clear E1.
  assert (B1 : 2 ^ 52 <= shr_m r1 < 2 ^ (52 + 1)).
  { rewrite M1. subst n. apply div_pow2_bounds; unfold prec in *; try lia.
    replace (52 + (dz - 53)) with (dz - 1) by lia.
    replace (52 + 1 + (dz - 53)) with dz by lia. exact Hmz. }
  change (2 ^ (52 + 1)) with (2 ^ 53) in B1.
  assert (B2 : shr_m r1 <= m2 <= shr_m r1 + 1).
  { subst m2. unfold round_nearest_even.
    destruct (loc_of_shr_record r1) as [|[]]; try destruct (Z.even (shr_m r1)); lia. }
  split; [exact M1|]. split; [exact B1|]. split; [exact B2|].
  destruct (shr_fexp_spec m2 (ez + n) loc_Exact) as [E2 M2]; [lia|].
  fold m2. destruct m2 as [|p2|p2] eqn:Em2; try lia.
  cbn [Zdigits2] in E2, M2.
  assert (D2lo : 52 + 1 <= Zpos (digits2_pos p2))
    by (apply digits2_pos_ge; lia).
  assert (D2hi : Zpos (digits2_pos p2) <= 54)
    by (apply digits2_pos_le; change (2 ^ 54) with (2 * 2 ^ 53); lia).
  pose proof (digits2_pos_bounds p2) as Hp2.
  set (d2 := Zpos (digits2_pos p2)) in *.
  assert (N2 : Z.max 0 (fexp prec emax (d2 + (ez + n)) - (ez + n)) = d2 - 53)
    by (subst n; unfold fexp, emin, prec, emax in *; lia).
  rewrite N2 in E2, M2. rewrite E2.
  set (m3 := shr_m (fst (shr_fexp prec emax (Zpos p2) (ez + n) loc_Exact))) in *.
  assert (C : d2 = 53 \/ d2 = 54) by lia. destruct C as [C|C]; rewrite C in *.
  - change (2 ^ (53 - 53)) with 1 in M2. rewrite Z.div_1_r in M2.
    rewrite M2. exists p2, (ez + n). replace (ez + n + (53 - 53)) with (ez + n) by lia.
    split; [lia|]. split; [left; split; reflexivity|reflexivity].
  - change (2 ^ (54 - 1)) with (2 ^ 53) in Hp2.
    assert (Ep2 : Zpos p2 = 2 ^ 53) by lia.
    rewrite Ep2 in M2. change (2 ^ 53 / 2 ^ (54 - 53)) with (2 ^ 52) in M2.
    rewrite M2. change (2 ^ 52) with (Zpos (2 ^ 52)) at 1.
    exists (2 ^ 52)%positive, (ez + n + 1).
    replace (ez + n + (54 - 53)) with (ez + n + 1) by lia.
    split; [split; [reflexivity|reflexivity]|].
    split; [right; repeat split; [exact Ep2]|reflexivity].
Qed.

(** Away from the upper end of the exponent range the result is finite. *)
Lemma binary_round_aux_finite (mz : positive) (ez : Z) (lx : location) :
  prec <= Zpos (digits2_pos mz) ->
  emin prec emax <= ez ->
  Zpos (digits2_pos mz) + ez <= emax - 1 ->
  exists m e,
    binary_round_aux prec emax false (Zpos mz) ez lx = S754_finite false m e.
Proof.
  intros Hd He Hmax.
  destruct (binary_round_aux_normal mz ez lx Hd He)
    as (_ & _ & _ & m3 & e3 & _ & C & E).
  rewrite E.
  replace (e3 <=? emax - prec) with true
    by (symmetry; apply Z.leb_le; unfold prec, emax in *; lia).
  eauto.
Qed.

Lemma of_int64_finite (z : Z) :
  0 < z <= maxInt64 -> exists m e, of_int64 z = S754_finite false m e.
Proof.
  intros [Hlo Hhi]. destruct z as [|p|p]; try lia.
  unfold of_int64, binary_normalize, binary_round.
  assert (Hd : Zpos (digits2_pos p) <= 63)
    by (apply digits2_pos_le; unfold maxInt64 in Hhi; lia).
  pose proof (Pos2Z.is_pos (digits2_pos p)) as Hd0.
  unfold shl_align.
  destruct (fexp prec emax (Zpos (digits2_pos p) + 0) - 0) as [|k|k] eqn:Ek;
    unfold fexp, emin, prec, emax in Ek.
  - apply binary_round_aux_finite; unfold emin, prec, emax; lia.
  - apply binary_round_aux_finite; unfold emin, prec, emax; lia.
  - apply binary_round_aux_finite; rewrite ?digits2_pos_shl;
      unfold fexp, emin, prec, emax; lia.
Qed.

(** *** The float of an [int64] *)




(** *** The order of positive finite floats *)









(** *** The percentage lies between 0 and 100 *)


Lemma wrap64_id (z : Z) : minInt64 <= z <= maxInt64 -> wrap64 z = z.
Proof.
  unfold wrap64, minInt64, maxInt64. intros H.
  rewrite Z.mod_small; lia.
Qed.



(** *** [Convert] *)

Lemma Convert_probe_error {St} (w : World) (opts : Options)
    (onProgress : option (ProgressFunc St)) (st : St) :
  ffprobe w (Input opts) = None ->
  Convert w opts onProgress st
  = Convert (mkWorld (fun _ => Some 0) (ffmpeg w)) opts onProgress st.
Proof. intros H. unfold Convert. cbn [ffprobe ffmpeg]. now rewrite H. Qed.

(** The outcome of a run does not depend on the probe. *)
Lemma Convert_outcome_probe {St} (w : World) (probe : string -> option Z)
    (opts : Options) (onProgress : option (ProgressFunc St)) (st : St) :
  outcome (Convert w opts onProgress st)
  = outcome (Convert (mkWorld probe (ffmpeg w)) opts onProgress st).
Proof.
  unfold Convert. cbn [ffprobe ffmpeg].
  destruct (buildFFmpegArgs opts) as [args|]; [|reflexivity].
  destruct (pipeError (ffmpeg w args)); [reflexivity|].
  destruct (startError (ffmpeg w args)); [reflexivity|].
  destruct onProgress as [f|];
    [destruct (ffprobe w (Input opts)) as [d|], (probe (Input opts)) as [d'|];
     try destruct (0 <? d); try destruct (0 <? d')|];
    destruct (waitError (ffmpeg w args)); reflexivity.
Qed.

(** The parser only ever runs with a positive duration. *)
Lemma Convert_parse_positive {St} (w : World) (opts : Options)
    (onProgress : option (ProgressFunc St)) (st : St) (t : Z) :
  In (Parse t) (actions (Convert w opts onProgress st)) ->
  0 < t /\ ffprobe w (Input opts) = Some t /\ onProgress <> None.
Proof.
  unfold Convert.
  destruct (buildFFmpegArgs opts) as [args|]; [|cbn; intuition discriminate].
  destruct (pipeError (ffmpeg w args)); [cbn; intuition discriminate|].
  destruct (startError (ffmpeg w args)); [cbn; intuition discriminate|].
  destruct onProgress as [f|].
  - destruct (ffprobe w (Input opts)) as [d|].
    + destruct (Z.ltb_spec 0 d) as [Hpos|Hneg];
        destruct (waitError (ffmpeg w args)); cbn;
        intros [H|[H|[H|[H|[]]]]]; try discriminate; injection H as <-;
        repeat split; auto; discriminate.
    + cbn [Z.ltb Z.compare]. destruct (waitError (ffmpeg w args)); cbn;
        intros [H|[H|[H|[H|[]]]]]; discriminate.
  - destruct (waitError (ffmpeg w args)); cbn;
      intros [H|[H|[H|[H|[]]]]]; discriminate.
Qed.

(** Without a positive duration or without a callback the stream is
    drained: the state of the callback is untouched. *)
Lemma Convert_drains {St} (w : World) (opts : Options)
    (onProgress : option (ProgressFunc St)) (st : St) (args : list string) :
  (ffprobe w (Input opts) = None
   \/ (exists d, ffprobe w (Input opts) = Some d /\ d <= 0)
   \/ onProgress = None) ->
  buildFFmpegArgs opts = Some args ->
  pipeError (ffmpeg w args) = None ->
  startError (ffmpeg w args) = None ->
  Convert w opts onProgress st
  = mkRun [Probe (Input opts); Start args; Drain; Wait] st
      (Returned (match waitError (ffmpeg w args) with
                 | Some e => Some ("ffmpeg conversion failed: " +:+ e)
                 | None => None
                 end)).
Proof.
  intros Hd Hb Hp Hs. unfold Convert. rewrite Hb, Hp, Hs.
  assert (E : match onProgress with
              | Some f =>
                  if 0 <? match ffprobe w (Input opts) with
                          | Some d => d
                          | None => 0
                          end
                  then (Parse match ffprobe w (Input opts) with
                              | Some d => d
                              | None => 0
                              end,
                        parseProgress (stderrLines (ffmpeg w args))
                          match ffprobe w (Input opts) with
                          | Some d => d
                          | None => 0
                          end f st)
                  else (Drain, st)
              | None => (Drain, st)
              end = (Drain, st)).
  { destruct onProgress as [f|]; [|reflexivity].
    destruct Hd as [->|[(d & -> & Hd)|Hd]]; [reflexivity| |discriminate].
    destruct (Z.ltb_spec 0 d); [lia|reflexivity]. }
  rewrite E. destruct (waitError (ffmpeg w args)); reflexivity.
Qed.

Lemma Convert_final_unchanged {St} (w : World) (opts : Options)
    (onProgress : option (ProgressFunc St)) (st : St) :
  (ffprobe w (Input opts) = None
   \/ (exists d, ffprobe w (Input opts) = Some d /\ d <= 0)
   \/ onProgress = None) ->
  final (Convert w opts onProgress st) = st.
Proof.
  intros Hd. unfold Convert.
  destruct (buildFFmpegArgs opts) as [args|]; [|reflexivity].
  destruct (pipeError (ffmpeg w args)); [reflexivity|].
  destruct (startError (ffmpeg w args)); [reflexivity|].
  destruct onProgress as [f|].
  - destruct Hd as [->|[(d & -> & Hd)|Hd]]; [| |discriminate].
    + destruct (waitError (ffmpeg w args)); reflexivity.
    + destruct (Z.ltb_spec 0 d); [lia|].
      destruct (waitError (ffmpeg w args)); reflexivity.
  - destruct (waitError (ffmpeg w args)); reflexivity.
Qed.

Lemma MarkerOf_found (line ds : string) :
  FindStringSubmatch line = [timeMarker +:+ ds; ds] -> Spec.MarkerOf line ds.
Proof.
  intros H. destruct (FindStringSubmatch_sound line) as [[Hf _]|(ds' & Hf & HM)].
  - rewrite H in Hf. discriminate.
  - rewrite H in Hf. injection Hf as _ <-. exact HM.
Qed.

Lemma resolved_output_nonempty (o : Options) : Output (ResolveOutput o) <> "".
Proof.
  rewrite ResolveOutput_resolve. unfold Spec.resolve. cbn [Output].
  destruct (isEmpty (Output o)) eqn:E.
  - destruct (Spec.stem (Input o)); discriminate.
  - now apply isEmpty_false.
Qed.

Lemma resolved_format_nonempty (o : Options) : Format (ResolveOutput o) <> "".
Proof.
  rewrite ResolveOutput_resolve. unfold Spec.resolve. cbn [Format].
  match goal with |- (if isEmpty ?x then _ else _) <> _ =>
    destruct (isEmpty x) eqn:E end.
  - discriminate.
  - now apply isEmpty_false.
Qed.

Lemma resolved_quality_nonempty (o : Options) : OQuality (ResolveOutput o) <> "".
Proof.
  rewrite ResolveOutput_resolve. unfold Spec.resolve. cbn [OQuality].
  destruct (isEmpty (OQuality o)) eqn:E.
  - discriminate.
  - now apply isEmpty_false.
Qed.

Lemma ResolveOutput_specified (o : Options) :
  Output o <> "" -> Format o <> "" -> OQuality o <> "" -> ResolveOutput o = o.
Proof.
  intros Ho Hf Hq. rewrite ResolveOutput_resolve. unfold Spec.resolve.
  apply isEmpty_false in Ho, Hf, Hq. rewrite Ho, Hf, Hq. cbn [negb andb].
  rewrite Hf. now destruct o.
Qed.

(** Resolving twice is resolving once. *)
Lemma ResolveOutput_idempotent (o : Options) :
  ResolveOutput (ResolveOutput o) = ResolveOutput o.
Proof.
  apply ResolveOutput_specified;
    [apply resolved_output_nonempty | apply resolved_format_nonempty
    | apply resolved_quality_nonempty].
Qed.

(** * The claims *)

(** C1. For each of the four quality presets the table used by the
    argument builder holds the rate factor low=28, medium=23, high=18,
    lossless=0, and on a request with that quality every argument list
    the builder returns has ["-crf"] immediately followed by that value,
    right after the codec arguments; the builder does return one when
    the resolution is unset, a preset or a dimension. *)
Theorem C1_rate_factor_table (p : Spec.Preset) (opts : Options) :
  OQuality opts = Spec.presetName p ->
  Spec.okResolution opts ->
  index_or 0 crfMap (OQuality opts) = Spec.rateFactor p
  /\ Itoa (Spec.rateFactor p) = Spec.rateText p
  /\ (forall args, buildFFmpegArgs opts = Some args ->
      exists post,
        args = (["-i"; Input opts; "-y"; "-progress"; "pipe:2"; "-nostats";
                 "-c:v"; chosenCodec opts]
                ++ "-crf" :: Spec.rateText p :: post)%list)
  /\ exists post,
       buildFFmpegArgs opts =
         Some (["-i"; Input opts; "-y"; "-progress"; "pipe:2"; "-nostats";
                "-c:v"; chosenCodec opts]
               ++ "-crf" :: Spec.rateText p :: post)%list.
Proof.
  intros Hq Hr. rewrite Hq, index_crfMap_preset. split; [reflexivity|].
  split; [apply Itoa_rateFactor|]. split.
  - intros args H. destruct (buildFFmpegArgs_shape opts args H) as [scale ->].
    rewrite Hq, index_crfMap_preset, Itoa_rateFactor. eexists. reflexivity.
  - destruct (buildFFmpegArgs_returns opts Hr) as [scale ->].
    rewrite Hq, index_crfMap_preset, Itoa_rateFactor. eexists. reflexivity.
Qed.

Lemma C1_rate_factor_table_witness :
  exists post,
    buildFFmpegArgs (mkOptions "a.mov" "a_converted.mp4" "mp4" "low" "" "") =
      Some (["-i"; "a.mov"; "-y"; "-progress"; "pipe:2"; "-nostats";
             "-c:v"; "libx264"] ++ "-crf" :: "28" :: post)%list.
Proof.
  exact (proj2 (proj2 (proj2 (C1_rate_factor_table Spec.Low
           (mkOptions "a.mov" "a_converted.mp4" "mp4" "low" "" "")
           eq_refl (or_introl eq_refl))))).
Defined.

(** C2. The resolver performs the four steps in order: the format is
    inferred from the text after the last ["."] of a given output path
    before the ["mp4"] default applies, the output is synthesized from
    the input without its extension and the final format, and the
    quality defaults to ["medium"]; [clip.mkv] resolves to format [mkv]
    and [movie.mov] with format [webm] to [movie_converted.webm]. *)
Theorem C2_resolve_order :
  (forall o, ResolveOutput o = Spec.resolve o)
  /\ (forall i q r c,
        Format (ResolveOutput (mkOptions i "clip.mkv" "" q r c)) = "mkv")
  /\ (forall q r c,
        Output (ResolveOutput (mkOptions "movie.mov" "" "webm" q r c))
        = "movie_converted.webm").
Proof.
  split; [exact ResolveOutput_resolve|]. split; intros.
  - rewrite ResolveOutput_resolve. reflexivity.
  - rewrite ResolveOutput_resolve. reflexivity.
Qed.




(** C4. An explicit codec selects its library from the table and wins
    over the format; without codec, format [webm] selects the VP9
    library and any other format the H.264 library.  The arguments carry
    ["-c:v"] and that library, then ["-crf"] and the rate factor,
    followed by ["-b:v"; "0"] exactly when the library name contains
    [vpx], and then directly the audio arguments. *)
Theorem C4_codec_selection (opts : Options) :
  (forall c, Codec opts = Spec.codecName c -> chosenCodec opts = Spec.library c)
  /\ (Codec opts = "" -> Format opts = "webm" ->
      chosenCodec opts = Spec.library Spec.VP9)
  /\ (Codec opts = "" -> Format opts <> "webm" ->
      chosenCodec opts = Spec.library Spec.H264)
  /\ (forall args, buildFFmpegArgs opts = Some args ->
      exists tl,
        args = (["-i"; Input opts; "-y"; "-progress"; "pipe:2"; "-nostats";
                 "-c:v"; chosenCodec opts;
                 "-crf"; Itoa (index_or 0 crfMap (OQuality opts))]
                ++ (if Contains (chosenCodec opts) "vpx"
                    then ["-b:v"; "0"] else [])
                ++ "-c:a" :: tl)%list)
  /\ (Spec.okResolution opts -> exists args, buildFFmpegArgs opts = Some args)
  /\ (forall c, Contains (Spec.library c) "vpx" = true <-> c = Spec.VP9).
Proof.
  split; [apply chosenCodec_explicit|].
  split; [apply chosenCodec_webm|].
  split; [apply chosenCodec_default|].
  split; [|split].
  - intros args H. destruct (buildFFmpegArgs_shape opts args H) as [scale ->].
    eexists. reflexivity.
  - intros H. destruct (buildFFmpegArgs_returns opts H) as [scale ->]. eauto.
  - intros []; cbn; split; congruence.
Qed.

Lemma C4_codec_selection_witness :
  chosenCodec (mkOptions "a.mp4" "o.webm" "webm" "medium" "" "") = "libvpx-vp9"
  /\ chosenCodec (mkOptions "a.mp4" "o.webm" "webm" "medium" "" "h265") = "libx265"
  /\ exists args,
       buildFFmpegArgs (mkOptions "a.mp4" "o.webm" "webm" "medium" "" "")
       = Some args.
Proof.
  split; [|split].
  - exact (proj1 (proj2 (C4_codec_selection
             (mkOptions "a.mp4" "o.webm" "webm" "medium" "" "")))
             eq_refl eq_refl).
  - exact (proj1 (C4_codec_selection
             (mkOptions "a.mp4" "o.webm" "webm" "medium" "" "h265"))
             Spec.H265 eq_refl).
  - exact (proj1 (proj2 (proj2 (proj2 (proj2 (C4_codec_selection
             (mkOptions "a.mp4" "o.webm" "webm" "medium" "" ""))))))
             (or_introl eq_refl)).
Defined.

(** C5. A failing probe does not fail the conversion: the run is the run
    with duration 0, and its outcome is the same whatever the probe
    reports.  When the probe fails, or reports no positive duration, or
    no callback is given, the state of the callback is left as it was
    and the parser is not run; once the process has started the stream
    is drained instead.  The parser only ever runs with a positive
    duration. *)
Theorem C5_probe_failure_is_not_fatal {St} (w : World) (opts : Options)
    (onProgress : option (ProgressFunc St)) (st : St) :
  (ffprobe w (Input opts) = None
   \/ (exists d, ffprobe w (Input opts) = Some d /\ d <= 0)
   \/ onProgress = None) ->
  (ffprobe w (Input opts) = None ->
   Convert w opts onProgress st
   = Convert (mkWorld (fun _ => Some 0) (ffmpeg w)) opts onProgress st)
  /\ (forall probe,
        outcome (Convert w opts onProgress st)
        = outcome (Convert (mkWorld probe (ffmpeg w)) opts onProgress st))
  /\ final (Convert w opts onProgress st) = st
  /\ (forall t, ~ In (Parse t) (actions (Convert w opts onProgress st)))
  /\ (forall args,
        buildFFmpegArgs opts = Some args ->
        pipeError (ffmpeg w args) = None ->
        startError (ffmpeg w args) = None ->
        actions (Convert w opts onProgress st)
        = [Probe (Input opts); Start args; Drain; Wait])
  /\ (forall (w' : World) (cb : option (ProgressFunc St)) t,
        In (Parse t) (actions (Convert w' opts cb st)) -> 0 < t).
Proof.
  intros Hd. split; [apply Convert_probe_error|].
  split; [intros probe; apply Convert_outcome_probe|].
  split; [now apply Convert_final_unchanged|].
  split; [|split].
  - intros t Hin. apply Convert_parse_positive in Hin as (Ht & Hp & Hcb).
    destruct Hd as [Hd|[(d & Hd & Hle)|Hd]]; try congruence.
    rewrite Hp in Hd. injection Hd as ->. lia.
  - intros args Hb Hp Hs. now rewrite (Convert_drains w opts onProgress st args).
  - intros w' cb t Hin. now apply Convert_parse_positive in Hin.
Qed.

Lemma C5_probe_failure_is_not_fatal_witness :
  let w := mkWorld (fun _ => None)
             (fun _ => mkProcess None None ["out_time_us=5000000"] None) in
  let opts := mkOptions "a.mov" "a_converted.mp4" "mp4" "medium" "" "" in
  final (Convert w opts (Some record) []) = []
  /\ forall t, ~ In (Parse t) (actions (Convert w opts (Some record) [])).
Proof.
  intros w opts.
  pose proof (C5_probe_failure_is_not_fatal w opts (Some record) []
                (or_introl eq_refl)) as H.
  exact (conj (proj1 (proj2 (proj2 H))) (proj1 (proj2 (proj2 (proj2 H))))).
Defined.

(** C6, as amended. After resolution the output, the format and the
    quality are non-empty, and codec and resolution are as given.  When
    validation accepts the resolved request, its format is one of the
    five supported formats, its quality one of the four presets, its
    codec, if set, one of the three supported codecs, and its
    resolution, if set, a preset or a dimension. *)
Theorem C6_resolved_invariants (o : Options) :
  Output (ResolveOutput o) <> ""
  /\ Format (ResolveOutput o) <> ""
  /\ OQuality (ResolveOutput o) <> ""
  /\ Codec (ResolveOutput o) = Codec o
  /\ Resolution (ResolveOutput o) = Resolution o
  /\ forall stat,
       ValidateOptions stat (ResolveOutput o) = None ->
       In (Format (ResolveOutput o)) Spec.formats
       /\ In (OQuality (ResolveOutput o)) Spec.qualities
       /\ (Codec o <> "" -> In (Codec o) Spec.codecs)
       /\ (Resolution o <> "" ->
           In (Resolution o) Spec.resolutions
           \/ Spec.DimensionPattern (Resolution o)).
Proof.
  pose proof (resolved_output_nonempty o) as Ho.
  pose proof (resolved_format_nonempty o) as Hf.
  pose proof (resolved_quality_nonempty o) as Hq.
  assert (Hc : Codec (ResolveOutput o) = Codec o)
    by now rewrite ResolveOutput_resolve.
  assert (Hr : Resolution (ResolveOutput o) = Resolution o)
    by now rewrite ResolveOutput_resolve.
  repeat (split; [assumption|]).
  intros stat Hv.
  apply ValidateOptions_None in Hv as (_ & Vf & Vc & Vq & Vr).
  unfold Spec.okFormat, Spec.okCodec, Spec.okQuality, Spec.okResolution in *.
  rewrite Hc in Vc. rewrite Hr in Vr. tauto.
Qed.

Lemma C6_resolved_invariants_witness :
  In (Format (ResolveOutput (mkOptions "a.mov" "clip.mkv" "" "" "720p" "")))
     Spec.formats.
Proof.
  exact (proj1 (proj2 (proj2 (proj2 (proj2 (proj2
           (C6_resolved_invariants
              (mkOptions "a.mov" "clip.mkv" "" "" "720p" ""))))))
           (fun _ => StatOk) eq_refl)).
Defined.

(** C6 as stated fails: resolving a request whose output is [clip.flv]
    gives the format [flv], which is not a supported format. *)
Lemma C6_counterexample :
  Format (ResolveOutput (mkOptions "a.mov" "clip.flv" "" "" "" "")) = "flv"
  /\ index_or false supportedFormats "flv" = false
  /\ ~ In "flv" Spec.formats.
Proof.
  split; [reflexivity|]. split; [reflexivity|].
  cbn. intuition discriminate.
Qed.

(** C7, as amended. The builder does not detect an unrecognized codec or
    quality: for a set codec outside the table it emits the empty
    library name, for a quality outside the table the rate factor 0, and
    it returns its argument list as for any other request.  Validation
    is what keeps such values away: it rejects every request whose set
    codec or set quality is outside the supported values. *)
Theorem C7_unrecognized_values (opts : Options) :
  (Codec opts <> "" -> ~ In (Codec opts) Spec.codecs -> chosenCodec opts = "")
  /\ (~ In (OQuality opts) Spec.qualities ->
      Itoa (index_or 0 crfMap (OQuality opts)) = "0")
  /\ (Spec.okResolution opts ->
      exists tl,
        buildFFmpegArgs opts =
          Some (["-i"; Input opts; "-y"; "-progress"; "pipe:2"; "-nostats";
                 "-c:v"; chosenCodec opts;
                 "-crf"; Itoa (index_or 0 crfMap (OQuality opts))] ++ tl)%list)
  /\ (forall stat,
        (Codec opts <> "" /\ ~ In (Codec opts) Spec.codecs)
        \/ (OQuality opts <> "" /\ ~ In (OQuality opts) Spec.qualities) ->
        exists msg, ValidateOptions stat opts = Some msg).
Proof.
  split; [apply chosenCodec_unknown|].
  split; [intros H; now rewrite index_crfMap_unknown|].
  split.
  - intros H. destruct (buildFFmpegArgs_returns opts H) as [scale ->].
    eexists. reflexivity.
  - intros stat H. destruct (ValidateOptions stat opts) as [msg|] eqn:E; [eauto|].
    apply ValidateOptions_None in E as (_ & _ & Vc & Vq & _).
    unfold Spec.okCodec, Spec.okQuality in *. tauto.
Qed.

Lemma C7_unrecognized_values_witness :
  chosenCodec (mkOptions "a.mov" "o.mp4" "mp4" "ultra" "" "av1") = ""
  /\ exists msg,
       ValidateOptions (fun _ => StatOk)
         (mkOptions "a.mov" "o.mp4" "mp4" "ultra" "" "av1") = Some msg.
Proof.
  pose proof (C7_unrecognized_values
                (mkOptions "a.mov" "o.mp4" "mp4" "ultra" "" "av1")) as H.
  assert (Hset : "av1" <> "") by discriminate.
  assert (Hout : ~ In "av1" Spec.codecs) by (cbn; intuition discriminate).
  split.
  - exact (proj1 H Hset Hout).
  - exact (proj2 (proj2 (proj2 H)) (fun _ => StatOk)
             (or_introl (conj Hset Hout))).
Defined.

(** C7 as stated fails: with codec [av1] and quality [ultra] the builder
    returns an argument list with an empty library name and the rate
    factor 0. *)
Lemma C7_counterexample :
  buildFFmpegArgs (mkOptions "a.mov" "o.mp4" "mp4" "ultra" "" "av1")
  = Some ["-i"; "a.mov"; "-y"; "-progress"; "pipe:2"; "-nostats";
          "-c:v"; ""; "-crf"; "0"; "-c:a"; "aac"; "-b:a"; "128k"; "o.mp4"].
Proof. vm_compute. reflexivity. Qed.

(** C8. Validation returns no error exactly when the input is not
    reported missing and each set field is within its rule; in
    particular it succeeds when the input exists and the rules hold.
    Every rejection carries one of five kinds, which names the first
    rule that the request breaks, so a set format, codec, quality or
    resolution outside its rule is rejected. *)
Theorem C8_validation (stat : string -> StatResult) (opts : Options) :
  (ValidateOptions stat opts = None
   <-> ~ Spec.missing stat opts /\ Spec.okFormat opts /\ Spec.okCodec opts
       /\ Spec.okQuality opts /\ Spec.okResolution opts)
  /\ (stat (Input opts) = StatOk -> Spec.okFormat opts -> Spec.okCodec opts ->
      Spec.okQuality opts -> Spec.okResolution opts ->
      ValidateOptions stat opts = None)
  /\ (forall msg, ValidateOptions stat opts = Some msg ->
      exists k, Spec.kindOf msg = Some k /\ Spec.violated stat opts k)
  /\ (~ Spec.okFormat opts \/ ~ Spec.okCodec opts \/ ~ Spec.okQuality opts
      \/ ~ Spec.okResolution opts ->
      exists msg k,
        ValidateOptions stat opts = Some msg /\ Spec.kindOf msg = Some k
        /\ Spec.violated stat opts k).
Proof.
  split; [apply ValidateOptions_None|]. split; [|split].
  - intros Hs Hf Hc Hq Hr. apply ValidateOptions_None.
    unfold Spec.missing. rewrite Hs. repeat split; auto; discriminate.
  - apply ValidateOptions_Some.
  - intros Hbad. destruct (ValidateOptions stat opts) as [msg|] eqn:E.
    + destruct (ValidateOptions_Some stat opts msg E) as (k & Hk & Hv). eauto.
    + apply ValidateOptions_None in E. tauto.
Qed.

Lemma C8_validation_witness :
  ValidateOptions (fun _ => StatOk)
    (mkOptions "a.mov" "o.mkv" "mkv" "high" "1920x1080" "h265") = None.
Proof.
  refine (proj1 (proj2 (C8_validation (fun _ => StatOk)
            (mkOptions "a.mov" "o.mkv" "mkv" "high" "1920x1080" "h265")))
            eq_refl _ _ _ _).
  - right. cbn. tauto.
  - right. cbn. tauto.
  - right. cbn. tauto.
  - right. right. exists "1920", "1080". repeat split; discriminate.
Defined.

(** C9. A request whose output, format and quality are all non-empty is
    returned unchanged by the resolver, whatever its resolution and
    codec. *)
Theorem C9_resolve_specified (o : Options) :
  Output o <> "" -> Format o <> "" -> OQuality o <> "" -> ResolveOutput o = o.
Proof. apply ResolveOutput_specified. Qed.

Lemma C9_resolve_specified_witness :
  ResolveOutput (mkOptions "a.mov" "b.mkv" "mp4" "high" "big" "av1")
  = mkOptions "a.mov" "b.mkv" "mp4" "high" "big" "av1".
Proof.
  apply (C9_resolve_specified (mkOptions "a.mov" "b.mkv" "mp4" "high" "big" "av1"));
    discriminate.
Defined.



(** * Further properties *)

(** ** Paths and the resolver *)

Lemma Contains_dot (s : string) :
  Contains s "." = true <-> Spec.afterLastDot s <> None.
Proof.
  induction s as [|c s IH]; cbn [Contains HasPrefix Spec.afterLastDot].
  - split; [discriminate|congruence].
  - rewrite orb_true_iff, IH, andb_true_r.
    destruct (Spec.afterLastDot s) as [e|].
    + split; [discriminate|]. intros _. right. discriminate.
    + rewrite (Ascii.eqb_sym "." c). destruct (Ascii.eqb c ".").
      * split; [discriminate|auto].
      * split; [intros [H|H]; [discriminate|congruence]|congruence].
Qed.

Lemma Contains_dot_false (s : string) :
  Contains s "." = false <-> Spec.afterLastDot s = None.
Proof.
  rewrite <- not_true_iff_false, Contains_dot.
  destruct (Spec.afterLastDot s) as [e|].
  - split; [intros H; destruct H; discriminate|discriminate].
  - split; [reflexivity|intros _ H; now apply H].
Qed.

Lemma afterLastDot_app (a e : string) :
  Spec.afterLastDot e = None -> Spec.afterLastDot (a +:+ "." +:+ e) = Some e.
Proof.
  intros He. induction a as [|c a IH].
  - change ("" +:+ "." +:+ e) with (String "." e). cbn [Spec.afterLastDot].
    now rewrite He.
  - rewrite app_cons. cbn [Spec.afterLastDot]. now rewrite IH.
Qed.

Lemma afterLastDot_no_dot (s e : string) :
  Spec.afterLastDot s = Some e -> Spec.afterLastDot e = None.
Proof.
  induction s as [|c s IH]; cbn [Spec.afterLastDot]; [discriminate|].
  destruct (Spec.afterLastDot s) as [e'|] eqn:E.
  - intros [= <-]. now apply IH.
  - destruct (Ascii.eqb c "."); [|discriminate]. now intros [= <-].
Qed.

Lemma stem_app (a e : string) :
  Spec.afterLastDot e = None -> Spec.stem (a +:+ "." +:+ e) = a.
Proof.
  intros He. pose proof (afterLastDot_app a e He) as H.
  apply stem_ext in H.
  set (b := Spec.stem (a +:+ "." +:+ e)) in *.
  assert (L : String.length a = String.length b).
  { apply (f_equal String.length) in H. rewrite !length_app in H. lia. }
  symmetry. now apply (app_inv_length a ("." +:+ e) b ("." +:+ e)).
Qed.

(** X1. Resolving a request twice gives what resolving it once gives. *)
Theorem X1_resolve_twice (o : Options) :
  ResolveOutput (ResolveOutput o) = ResolveOutput o.
Proof. apply ResolveOutput_idempotent. Qed.

(** X2. The resolver never replaces what the request already holds: the
    input, the resolution and the codec are kept, and so is every
    output, format and quality that is not empty. *)
Theorem X2_resolve_keeps_given_values (o : Options) :
  Input (ResolveOutput o) = Input o
  /\ Resolution (ResolveOutput o) = Resolution o
  /\ Codec (ResolveOutput o) = Codec o
  /\ (Output o <> "" -> Output (ResolveOutput o) = Output o)
  /\ (Format o <> "" -> Format (ResolveOutput o) = Format o)
  /\ (OQuality o <> "" -> OQuality (ResolveOutput o) = OQuality o).
Proof.
  rewrite ResolveOutput_resolve. unfold Spec.resolve.
  cbn [Input Resolution Codec Output Format OQuality].
  repeat (split; [reflexivity|]). split; [|split].
  - intros H. apply isEmpty_false in H. now rewrite H.
  - intros H. apply isEmpty_false in H. rewrite H, andb_false_r. now rewrite H.
  - intros H. apply isEmpty_false in H. now rewrite H.
Qed.

(** X3. When the output is synthesized and the resolved format has no
    dot in it, the extension of the synthesized output is that format,
    and resolving the result with its format erased infers the same
    format again. *)
Theorem X3_synthesized_output_carries_format (o : Options) :
  Output o = "" ->
  Contains (Format (ResolveOutput o)) "." = false ->
  getExtension (Output (ResolveOutput o)) = Format (ResolveOutput o)
  /\ Format (ResolveOutput (set_Format (ResolveOutput o) ""))
     = Format (ResolveOutput o).
Proof.
  intros Ho Hf. apply Contains_dot_false in Hf.
  pose proof (resolved_format_nonempty o) as Hne.
  assert (Hout : Output (ResolveOutput o)
                 = (Spec.stem (Input o) +:+ "_converted") +:+ "."
                   +:+ Format (ResolveOutput o)).
  { rewrite ResolveOutput_resolve. unfold Spec.resolve. cbn [Output Format].
    rewrite Ho. cbn [isEmpty String.eqb]. now rewrite !app_assoc. }
  assert (Hext : Spec.afterLastDot (Output (ResolveOutput o))
                 = Some (Format (ResolveOutput o)))
    by (rewrite Hout; now apply afterLastDot_app).
  split.
  - now rewrite getExtension_spec, Hext.
  - rewrite (ResolveOutput_resolve (set_Format _ _)). unfold Spec.resolve.
    unfold set_Format. cbn [Output Format Input OQuality Resolution Codec].
    pose proof (resolved_output_nonempty o) as Hno.
    apply isEmpty_false in Hno. rewrite Hno. cbn [negb isEmpty String.eqb andb].
    rewrite Hext. cbn [default]. unfold id. fold (isEmpty (Format (ResolveOutput o))).
    apply isEmpty_false in Hne. now rewrite Hne.
Qed.

Lemma X3_synthesized_output_carries_format_witness :
  getExtension (Output (ResolveOutput (mkOptions "movie.mov" "" "webm" "" "" "")))
  = Format (ResolveOutput (mkOptions "movie.mov" "" "webm" "" "" "")).
Proof.
  exact (proj1 (X3_synthesized_output_carries_format
                  (mkOptions "movie.mov" "" "webm" "" "" "") eq_refl eq_refl)).
Defined.

(** X4. [getExtension] and the trimming of the resolver split a path at
    its last dot, whatever follows it: the extension has no dot, a path
    with a dot is its base, a dot and its extension, and a path without
    dot has the empty extension and is its own base.  So a name [a.e]
    with no dot in [e] has extension [e] and base [a], also when [e]
    holds a path separator or [a] is empty. *)
Theorem X4_extension_splits_at_last_dot (s : string) :
  let ext := getExtension s in
  let base := TrimSuffix s ("." +:+ ext) in
  Contains ext "." = false
  /\ (Contains s "." = true -> s = base +:+ "." +:+ ext)
  /\ (Contains s "." = false -> ext = "" /\ base = s)
  /\ (forall a e, s = a +:+ "." +:+ e -> Contains e "." = false ->
      ext = e /\ base = a).
Proof.
  intros ext base. subst base ext.
  rewrite TrimSuffix_getExtension, getExtension_spec.
  split; [|split; [|split]].
  - apply Contains_dot_false. destruct (Spec.afterLastDot s) as [e|] eqn:E.
    + now apply (afterLastDot_no_dot s).
    + reflexivity.
  - intros H. apply Contains_dot in H.
    destruct (Spec.afterLastDot s) as [e|] eqn:E; [|congruence].
    now apply stem_ext.
  - intros H. apply Contains_dot_false in H. rewrite H.
    split; [reflexivity|now apply stem_nodot].
  - intros a e -> He. apply Contains_dot_false in He.
    rewrite (afterLastDot_app a e He), (stem_app a e He). auto.
Qed.

Lemma X4_extension_splits_at_last_dot_witness :
  getExtension "dir.v1/movie" = "v1/movie"
  /\ TrimSuffix "dir.v1/movie" ("." +:+ getExtension "dir.v1/movie") = "dir".
Proof.
  exact (proj2 (proj2 (proj2 (X4_extension_splits_at_last_dot "dir.v1/movie")))
           "dir" "v1/movie" eq_refl eq_refl).
Defined.

(** ** Scale expressions and the argument list *)

Lemma Contains_char_cons (c sep : ascii) (s : string) :
  Contains (String c s) (String sep "")
  = Ascii.eqb sep c || Contains s (String sep "").
Proof. cbn [Contains HasPrefix]. now rewrite andb_true_r. Qed.

Lemma Split_without (s : string) (sep : ascii) :
  Contains s (String sep "") = false -> Split s sep = [s].
Proof.
  induction s as [|c s IH]; [reflexivity|].
  rewrite Contains_char_cons. intros [Hc Hs]%orb_false_iff.
  cbn [Split]. rewrite Ascii.eqb_sym, Hc, (IH Hs). reflexivity.
Qed.

Lemma Split_at_first (a b : string) (sep : ascii) :
  Contains a (String sep "") = false ->
  Split (a +:+ String sep b) sep = a :: Split b sep.
Proof.
  induction a as [|c a IH].
  - intros _. change ("" +:+ String sep b) with (String sep b).
    cbn [Split]. now rewrite Ascii.eqb_refl.
  - rewrite Contains_char_cons. intros [Hc Ha]%orb_false_iff.
    rewrite app_cons. cbn [Split]. rewrite Ascii.eqb_sym, Hc, (IH Ha). reflexivity.
Qed.

Lemma Split_with (s : string) (sep : ascii) :
  Contains s (String sep "") = true ->
  exists p0 p1 rest, Split s sep = p0 :: p1 :: rest.
Proof.
  induction s as [|c s IH]; [discriminate|].
  rewrite Contains_char_cons. cbn [Split]. rewrite (Ascii.eqb_sym sep c).
  destruct (Ascii.eqb c sep).
  - intros _. pose proof (Split_nonempty s sep).
    destruct (Split s sep) as [|p1 rest]; [congruence|]. eauto.
  - cbn [orb]. intros H. destruct (IH H) as (p0 & p1 & rest & ->). eauto.
Qed.

Lemma Contains_at (a b : string) (sep : ascii) :
  Contains (a +:+ String sep b) (String sep "") = true.
Proof.
  induction a as [|c a IH].
  - change ("" +:+ String sep b) with (String sep b).
    now rewrite Contains_char_cons, Ascii.eqb_refl.
  - rewrite app_cons, Contains_char_cons, IH. apply orb_true_r.
Qed.

Lemma scalePresets_None (res : string) :
  scalePresets !! res = None <-> ~ In res Spec.resolutions.
Proof.
  split.
  - intros H Hin. apply scalePresets_keys in H.
    apply resolutionPresets_spec in Hin. congruence.
  - unfold Spec.resolutions. table_cases; cbn [In]; intros Hin;
      try reflexivity; exfalso; apply Hin; tauto.
Qed.

Lemma preset_without_x (res : string) :
  In res Spec.resolutions -> Contains res "x" = false.
Proof.
  unfold Spec.resolutions. cbn [In].
  intros [<-|[<-|[<-|[<-|[<-|[<-|[]]]]]]]; reflexivity.
Qed.

(** X5. For each of the six preset names [Np] the scale expression is
    [scale=-2:N], with [N] the digits of the name. *)
Theorem X5_scale_of_preset (res : string) :
  In res Spec.resolutions ->
  exists n,
    res = n +:+ "p" /\ n <> "" /\ allDigits n = true
    /\ resolveScale res = Some ("scale=-2:" +:+ n).
Proof.
  unfold Spec.resolutions. cbn [In].
  intros [<-|[<-|[<-|[<-|[<-|[<-|[]]]]]]].
  - exists "2160". repeat split; discriminate.
  - exists "1440". repeat split; discriminate.
  - exists "1080". repeat split; discriminate.
  - exists "720". repeat split; discriminate.
  - exists "480". repeat split; discriminate.
  - exists "360". repeat split; discriminate.
Qed.

Lemma X5_scale_of_preset_witness :
  exists n,
    "720p" = n +:+ "p" /\ n <> "" /\ allDigits n = true
    /\ resolveScale "720p" = Some ("scale=-2:" +:+ n).
Proof.
  apply (X5_scale_of_preset "720p"). cbn. tauto.
Defined.

(** X6. A dimension [WxH] of two non-empty runs of digits is a valid
    resolution and its scale expression is [scale=W:H], the two numbers
    as they were written. *)
Theorem X6_scale_of_dimension (w h : string) :
  w <> "" -> h <> "" -> allDigits w = true -> allDigits h = true ->
  isValidResolution (w +:+ "x" +:+ h) = true
  /\ resolveScale (w +:+ "x" +:+ h) = Some ("scale=" +:+ w +:+ ":" +:+ h).
Proof.
  intros Hw Hh Dw Dh. split.
  - apply isValidResolution_spec. right. now exists w, h.
  - now apply resolveScale_dimension.
Qed.

Lemma X6_scale_of_dimension_witness :
  isValidResolution "0640x0480" = true
  /\ resolveScale "0640x0480" = Some "scale=0640:0480".
Proof.
  apply (X6_scale_of_dimension "0640" "0480"); (discriminate || reflexivity).
Defined.

Lemma resolveScale_None (res : string) :
  resolveScale res = None
  <-> ~ In res Spec.resolutions /\ Contains res "x" = false.
Proof.
  unfold resolveScale. destruct (scalePresets !! res) as [s|] eqn:E.
  - split; [discriminate|]. intros [Hn _]. apply scalePresets_None in Hn.
    congruence.
  - apply scalePresets_None in E.
    destruct (Contains res "x") eqn:C.
    + destruct (Split_with res "x" C) as (p0 & p1 & rest & ->).
      split; [discriminate|]. intros [_ H]. discriminate.
    + rewrite (Split_without res "x" C). split; [auto|reflexivity].
Qed.

Lemma scalePresets_with_x (a b : string) :
  scalePresets !! (a +:+ String "x" b) = None.
Proof.
  apply scalePresets_None. intros Hin. apply preset_without_x in Hin.
  now rewrite Contains_at in Hin.
Qed.

Lemma resolveScale_pieces (a b : string) :
  Contains a "x" = false ->
  resolveScale (a +:+ String "x" b)
  = Some ("scale=" +:+ a +:+ ":" +:+ hd "" (Split b "x")).
Proof.
  intros Ha. unfold resolveScale.
  rewrite scalePresets_with_x, (Split_at_first a b "x" Ha).
  pose proof (Split_nonempty b "x").
  destruct (Split b "x"); [congruence|reflexivity].
Qed.

(** X7. [resolveScale] panics exactly on a text that is no preset and
    has no ["x"] in it.  On a text with an ["x"] it returns the first
    two pieces between the ["x"]s, whatever they are, and drops the
    rest. *)
Theorem X7_scale_panics_without_x (res : string) :
  (resolveScale res = None
   <-> ~ In res Spec.resolutions /\ Contains res "x" = false)
  /\ (forall a b,
        res = a +:+ "x" +:+ b ->
        Contains a "x" = false -> Contains b "x" = false ->
        resolveScale res = Some ("scale=" +:+ a +:+ ":" +:+ b))
  /\ (forall a b c,
        res = a +:+ "x" +:+ b +:+ "x" +:+ c ->
        Contains a "x" = false -> Contains b "x" = false ->
        resolveScale res = Some ("scale=" +:+ a +:+ ":" +:+ b)).
Proof.
  split; [apply resolveScale_None|]. split.
  - intros a b -> Ha Hb. change (a +:+ "x" +:+ b) with (a +:+ String "x" b).
    now rewrite (resolveScale_pieces a b Ha), (Split_without b "x" Hb).
  - intros a b c -> Ha Hb.
    change (a +:+ "x" +:+ b +:+ "x" +:+ c)
      with (a +:+ String "x" (b +:+ String "x" c)).
    now rewrite (resolveScale_pieces a _ Ha), (Split_at_first b c "x" Hb).
Qed.

Lemma X7_scale_panics_without_x_witness :
  resolveScale "iwx-1" = Some "scale=iw:-1"
  /\ resolveScale "1x2x3" = Some "scale=1:2".
Proof.
  split.
  - exact (proj1 (proj2 (X7_scale_panics_without_x "iwx-1"))
             "iw" "-1" eq_refl eq_refl eq_refl).
  - exact (proj2 (proj2 (X7_scale_panics_without_x "1x2x3"))
             "1" "2" "3" eq_refl eq_refl eq_refl).
Defined.

Lemma chosenCodec_valid (opts : Options) :
  Spec.okCodec opts -> In (chosenCodec opts) Spec.libraries.
Proof.
  unfold Spec.okCodec, Spec.codecs, Spec.libraries. cbn [In].
  intros [H|[H|[H|[H|[]]]]].
  - unfold chosenCodec. rewrite H. cbn [isEmpty String.eqb negb].
    destruct (String.eqb (Format opts) "webm"); tauto.
  - rewrite (chosenCodec_explicit opts Spec.H264); [cbn; tauto|now symmetry].
  - rewrite (chosenCodec_explicit opts Spec.H265); [cbn; tauto|now symmetry].
  - rewrite (chosenCodec_explicit opts Spec.VP9); [cbn; tauto|now symmetry].
Qed.

Lemma rate_valid (q : string) :
  In q Spec.qualities -> In (Itoa (index_or 0 crfMap q)) Spec.rateTexts.
Proof.
  unfold Spec.qualities, Spec.rateTexts. cbn [In].
  intros [<-|[<-|[<-|[<-|[]]]]]; vm_compute; tauto.
Qed.

(** What validation leaves for the builder: a request it accepts after
    resolution is built without panic, with a library and a rate factor
    of the tables. *)
Lemma validated_builds (stat : string -> StatResult) (o : Options) :
  ValidateOptions stat (ResolveOutput o) = None ->
  exists tl,
    In (chosenCodec (ResolveOutput o)) Spec.libraries
    /\ In (Itoa (index_or 0 crfMap (OQuality (ResolveOutput o)))) Spec.rateTexts
    /\ buildFFmpegArgs (ResolveOutput o) =
         Some (["-i"; Input o; "-y"; "-progress"; "pipe:2"; "-nostats";
                "-c:v"; chosenCodec (ResolveOutput o);
                "-crf"; Itoa (index_or 0 crfMap (OQuality (ResolveOutput o)))]
               ++ tl)%list.
Proof.
  intros Hv. apply ValidateOptions_None in Hv as (_ & _ & Vc & Vq & Vr).
  destruct (buildFFmpegArgs_returns _ Vr) as [scale E].
  eexists. split; [now apply chosenCodec_valid|]. split.
  - apply rate_valid. destruct Vq as [Vq|Vq]; [|exact Vq].
    now destruct (resolved_quality_nonempty o).
  - rewrite E. replace (Input (ResolveOutput o)) with (Input o)
      by now rewrite ResolveOutput_resolve.
    reflexivity.
Qed.

(** X8. The argument builder panics exactly when a resolution is set
    that is no preset and has no ["x"] in it; in every other case it
    returns a list. *)
Theorem X8_builder_panics (opts : Options) :
  buildFFmpegArgs opts = None
  <-> Resolution opts <> "" /\ ~ In (Resolution opts) Spec.resolutions
      /\ Contains (Resolution opts) "x" = false.
Proof.
  rewrite buildFFmpegArgs_unfold, <- resolveScale_None.
  destruct (isEmpty (Resolution opts)) eqn:E.
  - apply isEmpty_true in E. cbn [mbind option_bind].
    split; [discriminate|]. intros [H _]. congruence.
  - apply isEmpty_false in E.
    destruct (resolveScale (Resolution opts)); cbn [mbind option_bind].
    + split; [discriminate|]. intros [_ H]. discriminate.
    + split; auto.
Qed.

(** X9. In every list the builder returns the input path is the second
    argument and the output path the last one, both as given; the audio
    arguments are always [-c:a aac -b:a 128k]; and a video filter is
    present exactly when a resolution is set, holding the expression of
    [resolveScale]. *)
Theorem X9_builder_layout (opts : Options) (args : list string) :
  buildFFmpegArgs opts = Some args ->
  exists video filter : list string,
    args = (("-i" :: Input opts :: "-y" :: "-progress" :: "pipe:2" :: "-nostats"
             :: "-c:v" :: chosenCodec opts :: "-crf" :: video)
            ++ ["-c:a"; "aac"; "-b:a"; "128k"] ++ filter ++ [Output opts])%list
    /\ (List.length video = 1 \/ List.length video = 3)%nat
    /\ (Resolution opts = "" -> filter = [])
    /\ (Resolution opts <> "" ->
        exists scale,
          resolveScale (Resolution opts) = Some scale
          /\ filter = ["-vf"; scale])
    /\ List.last args "" = Output opts.
Proof.
  rewrite buildFFmpegArgs_unfold. intros H.
  set (crf := Itoa (index_or 0 crfMap (OQuality opts))) in *.
  exists (crf :: (if Contains (chosenCodec opts) "vpx" then ["-b:v"; "0"] else [])).
  destruct (isEmpty (Resolution opts)) eqn:E.
  - apply isEmpty_true in E. cbn [mbind option_bind] in H. injection H as <-.
    exists []. split; [now destruct (Contains _ "vpx")|].
    split; [destruct (Contains _ "vpx"); cbn; auto|].
    split; [reflexivity|]. split; [congruence|].
    destruct (Contains _ "vpx"); reflexivity.
  - apply isEmpty_false in E.
    destruct (resolveScale (Resolution opts)) as [scale|];
      cbn [mbind option_bind] in H; [|discriminate]. injection H as <-.
    exists ["-vf"; scale]. split; [now destruct (Contains _ "vpx")|].
    split; [destruct (Contains _ "vpx"); cbn; auto|].
    split; [congruence|]. split; [eauto|].
    destruct (Contains _ "vpx"); reflexivity.
Qed.

Lemma X9_builder_layout_witness :
  List.last ["-i"; "-y"; "-y"; "-progress"; "pipe:2"; "-nostats";
             "-c:v"; "libx264"; "-crf"; "23"; "-c:a"; "aac"; "-b:a"; "128k";
             "-i"] "" = "-i".
Proof.
  destruct (X9_builder_layout (mkOptions "-y" "-i" "mp4" "medium" "" "") _ eq_refl)
    as (video & filter & _ & _ & _ & _ & H).
  exact H.
Defined.

(** X10. A request that validation accepts after resolution is built
    without panic, the codec library is one of [libx264], [libx265] and
    [libvpx-vp9], and the rate factor one of 28, 23, 18 and 0. *)
Theorem X10_validated_request_builds (stat : string -> StatResult) (o : Options) :
  ValidateOptions stat (ResolveOutput o) = None ->
  exists lib rate tl,
    In lib Spec.libraries /\ In rate Spec.rateTexts
    /\ buildFFmpegArgs (ResolveOutput o) =
         Some (["-i"; Input o; "-y"; "-progress"; "pipe:2"; "-nostats";
                "-c:v"; lib; "-crf"; rate] ++ tl)%list.
Proof.
  intros Hv. destruct (validated_builds stat o Hv) as (tl & Hl & Hr & E).
  eauto 6.
Qed.

Lemma X10_validated_request_builds_witness :
  exists lib rate tl,
    In lib Spec.libraries /\ In rate Spec.rateTexts
    /\ buildFFmpegArgs (ResolveOutput (mkOptions "a.mov" "" "" "" "480p" "")) =
         Some (["-i"; "a.mov"; "-y"; "-progress"; "pipe:2"; "-nostats";
                "-c:v"; lib; "-crf"; rate] ++ tl)%list.
Proof.
  exact (X10_validated_request_builds (fun _ => StatOk)
           (mkOptions "a.mov" "" "" "" "480p" "") eq_refl).
Defined.

(** ** Validation and the output path *)

Lemma kindOf_format_message (f : string) :
  Spec.kindOf ("unsupported format: " +:+ f
               +:+ " (supported: mp4, mkv, webm, avi, mov)")
  = Some Spec.UnsupportedFormat.
Proof. reflexivity. Qed.

(** X11. Validation never looks at the output path.  After resolution
    the extension of a given output is checked only when the format was
    inferred from it: with no format given, an output whose extension is
    not a supported format is rejected as an unsupported format, and
    with a supported format given no output is. *)
Theorem X11_output_extension_checked_when_inferred
    (stat : string -> StatResult) (o : Options) :
  (forall v, ValidateOptions stat (set_Output o v) = ValidateOptions stat o)
  /\ (stat (Input o) <> StatNotExist ->
      Format o = "" -> Output o <> "" ->
      getExtension (Output o) <> "" ->
      ~ In (getExtension (Output o)) Spec.formats ->
      ValidateOptions stat (ResolveOutput o)
      = Some ("unsupported format: " +:+ getExtension (Output o)
              +:+ " (supported: mp4, mkv, webm, avi, mov)"))
  /\ (In (Format o) Spec.formats ->
      forall msg, ValidateOptions stat (ResolveOutput o) = Some msg ->
                  Spec.kindOf msg <> Some Spec.UnsupportedFormat).
Proof.
  split; [reflexivity|]. split.
  - intros Hs Hf Ho He Hbad.
    assert (Hfmt : Format (ResolveOutput o) = getExtension (Output o)).
    { rewrite ResolveOutput_resolve, getExtension_spec in *. unfold Spec.resolve.
      cbn [Format]. apply isEmpty_false in Ho. rewrite Ho, Hf.
      cbn [negb isEmpty String.eqb andb].
      fold (isEmpty (default "" (Spec.afterLastDot (Output o)))).
      apply isEmpty_false in He. now rewrite He. }
    unfold ValidateOptions.
    replace (Input (ResolveOutput o)) with (Input o)
      by now rewrite ResolveOutput_resolve.
    destruct (stat (Input o)) eqn:Es; try congruence; cbn [IsNotExist];
      rewrite Hfmt;
      (destruct (isEmpty (getExtension (Output o))) eqn:E1;
       [apply isEmpty_true in E1; congruence|]);
      (destruct (index_or false supportedFormats (getExtension (Output o))) eqn:E2;
       [apply supportedFormats_spec in E2; contradiction|]);
      reflexivity.
  - intros Hin msg Hv Hk.
    destruct (ValidateOptions_Some stat _ msg Hv) as (k & Hk' & Hviol).
    rewrite Hk in Hk'. injection Hk' as <-.
    destruct Hviol as [_ Hbad]. apply Hbad. right.
    destruct (String.eqb_spec (Format o) "") as [E|E].
    + rewrite E in Hin. cbn in Hin. intuition discriminate.
    + rewrite ResolveOutput_resolve. unfold Spec.resolve. cbn [Format].
      apply isEmpty_false in E. rewrite E, andb_false_r, E. exact Hin.
Qed.

Lemma X11_output_extension_checked_when_inferred_witness :
  ValidateOptions (fun _ => StatOk)
    (ResolveOutput (mkOptions "a.mov" "out.flv" "" "" "" ""))
  = Some "unsupported format: flv (supported: mp4, mkv, webm, avi, mov)".
Proof.
  refine (proj1 (proj2 (X11_output_extension_checked_when_inferred
            (fun _ => StatOk) (mkOptions "a.mov" "out.flv" "" "" "" "")))
            _ eq_refl _ _ _); try discriminate.
  cbn. intuition discriminate.
Defined.

(** ** The percentages *)

Lemma binary_round_aux_not_nan (sx : bool) (mx ex : Z) (lx : location) :
  0 <= mx -> is_nan (binary_round_aux prec emax sx mx ex lx) = false.
Proof.
  intros H. unfold binary_round_aux.
  pose proof (shr_fexp_nonneg mx ex lx H) as H1.
  destruct (shr_fexp prec emax mx ex lx) as [r1 e1]. cbn [fst] in H1.
  pose proof (shr_fexp_nonneg
                (round_nearest_even (shr_m r1) (loc_of_shr_record r1)) e1
                loc_Exact (round_nearest_even_nonneg _ _ H1)) as H2.
  destruct (shr_fexp prec emax _ e1 loc_Exact) as [r2 e2]. cbn [fst] in H2.
  destruct (shr_m r2) as [|p|p]; [reflexivity| |lia].
  now destruct (e2 <=? emax - prec).
Qed.

Lemma of_int64_not_nan (z : Z) : is_nan (of_int64 z) = false.
Proof.
  unfold of_int64, binary_normalize. destruct z as [|p|p]; [reflexivity| |];
    unfold binary_round; destruct (shl_align _ _ _) as [mz ez];
    apply binary_round_aux_not_nan; lia.
Qed.

Lemma div_not_nan (x : float64) (m : positive) (e : Z) :
  is_nan x = false -> is_nan (div x (S754_finite false m e)) = false.
Proof.
  destruct x as [sx|sx| |sx mx ex]; cbn; try reflexivity; try discriminate.
  intros _. unfold SFdiv_core_binary.
  set (m' := match _ with Z0 => Z.pos mx | Z.pos _ => _ | Z.neg _ => 0 end).
  assert (Hm' : 0 <= m').
  { subst m'. destruct (_ - _ - _) as [|p|p]; try lia.
    apply Z.shiftl_nonneg. lia. }
  pose proof (Z_div_mod m' (Zpos m) eq_refl) as Hdiv.
  destruct (Z.div_eucl m' (Z.pos m)) as [q r].
  apply binary_round_aux_not_nan. destruct Hdiv as [Hq Hr]. nia.
Qed.

Lemma mul_not_nan (x : float64) (m : positive) (e : Z) :
  is_nan x = false -> is_nan (mul x (S754_finite false m e)) = false.
Proof.
  destruct x as [sx|sx| |sx mx ex]; cbn; try reflexivity; try discriminate.
  intros _. apply binary_round_aux_not_nan. lia.
Qed.

Lemma not_gt_le_any (x : float64) (m : positive) (e : Z) :
  is_nan x = false -> gt x (S754_finite false m e) = false ->
  le x (S754_finite false m e) = true.
Proof.
  unfold gt, le, SFltb, SFleb.
  destruct x as [[]|[]| |[] mx ex]; cbn; try reflexivity; try discriminate.
  intros _. rewrite (Z.compare_antisym ex e).
  destruct (ex ?= e); cbn; try reflexivity; try discriminate.
  rewrite !Pos.compare_cont_spec. cbn [Pos.switch_Eq].
  rewrite (Pos.compare_antisym mx m).
  destruct (mx ?= m)%positive; cbn; try reflexivity; discriminate.
Qed.

(** Whatever the elapsed time, with a positive total the clamped
    percentage is a number and is at most 100. *)
Lemma percent_at_most_hundred (current total : Z) :
  0 < total <= maxInt64 ->
  let raw := mul (div (of_int64 current) (of_int64 total)) hundred in
  let percent := if gt raw hundred then hundred else raw in
  is_nan percent = false /\ le percent hundred = true.
Proof.
  intros Ht raw percent.
  destruct (of_int64_finite total Ht) as (m & e & Et).
  assert (Hraw : is_nan raw = false).
  { subst raw. unfold hundred. apply mul_not_nan. rewrite Et.
    apply div_not_nan, of_int64_not_nan. }
  subst percent. destruct (gt raw hundred) eqn:G.
  - split; reflexivity.
  - split; [exact Hraw|]. unfold hundred in *. now apply not_gt_le_any.
Qed.

Lemma lineProgress_Some (total : Z) (line : string) (p : float64) :
  lineProgress total line = Some p ->
  exists us,
    p = (let raw :=
           mul (div (of_int64 (wrap64 (us * Microsecond))) (of_int64 total))
               hundred in
         if gt raw hundred then hundred else raw).
Proof.
  unfold lineProgress.
  destruct (List.length (FindStringSubmatch line) =? 2)%nat; [|discriminate].
  destruct (ParseInt _) as [us|]; [|discriminate].
  intros [= <-]. now exists us.
Qed.

Lemma lineProgress_valid (total : Z) (line : string) (p : float64) :
  0 < total <= maxInt64 -> lineProgress total line = Some p ->
  is_nan p = false /\ le p hundred = true.
Proof.
  intros Ht H. apply lineProgress_Some in H as (us & ->).
  now apply percent_at_most_hundred.
Qed.

Lemma percentages_In (total : Z) (r : list string) (p : float64) :
  In p (percentages total r) ->
  exists line, In line r /\ lineProgress total line = Some p.
Proof.
  induction r as [|line r IH]; cbn [percentages]; [intros []|].
  destruct (lineProgress total line) as [q|] eqn:E.
  - intros [<-|H]; [exists line; split; [now left|exact E]|].
    destruct (IH H) as (l & Hl & El). exists l. split; [now right|exact El].
  - intros H. destruct (IH H) as (l & Hl & El). exists l.
    split; [now right|exact El].
Qed.



(** X14. No percentage handed to the callback exceeds 100, whatever the
    total; and with a positive total every percentage is a number (not
    a NaN) that is at most 100, also when the elapsed time wrapped. *)
Theorem X14_percentage_at_most_hundred (total : Z) (line : string) (p : float64) :
  lineProgress total line = Some p ->
  gt p hundred = false
  /\ (0 < total <= maxInt64 -> is_nan p = false /\ le p hundred = true).
Proof.
  intros H. apply lineProgress_Some in H as (us & ->). cbn zeta. split.
  - set (raw := mul _ hundred). destruct (gt raw hundred) eqn:G;
      [reflexivity|exact G].
  - intros Ht. now apply percent_at_most_hundred.
Qed.

Lemma X14_percentage_at_most_hundred_witness :
  gt (S754_finite true 6044629098073146 (-17)) hundred = false
  /\ le (S754_finite true 6044629098073146 (-17)) hundred = true.
Proof.
  assert (Ht : 0 < 20 * Second <= maxInt64) by (vm_compute; split; congruence).
  destruct (X14_percentage_at_most_hundred (20 * Second)
              "out_time_us=9223372036854776" _ eq_refl) as [H1 H2].
  exact (conj H1 (proj2 (H2 Ht))).
Defined.



(** X16. With the total at zero the parser has no sound percentage: a
    marker of zero hands a NaN to the callback, and every other marker
    of at most [maxMicroseconds] hands it 100. *)
Theorem X16_zero_total (line ds : string) :
  Spec.MarkerOf line ds ->
  (decimalValue 0 ds = 0 -> lineProgress 0 line = Some S754_nan)
  /\ (0 < decimalValue 0 ds <= maxMicroseconds ->
      lineProgress 0 line = Some hundred).
Proof.
  intros HM. pose proof HM as (_ & _ & _ & Hd & Hdig & _).
  rewrite (lineProgress_marker 0 line ds HM), (ParseInt_digits ds Hd Hdig).
  change maxMicroseconds with 9223372036854775. split.
  - intros ->. reflexivity.
  - intros [Hlo Hhi]. destruct (Z.leb_spec (2 ^ 63) (decimalValue 0 ds)); [lia|].
    rewrite wrap64_id by (unfold minInt64, maxInt64, Microsecond; lia).
    destruct (of_int64_finite (decimalValue 0 ds * Microsecond)) as (m & e & ->);
      [unfold maxInt64, Microsecond; lia|].
    reflexivity.
Qed.

Lemma X16_zero_total_witness :
  lineProgress 0 "out_time_us=0" = Some S754_nan.
Proof.
  refine (proj1 (X16_zero_total "out_time_us=0" "0" _) eq_refl).
  apply MarkerOf_found. reflexivity.
Defined.



(** ** Conversions and the command *)

Lemma Convert_cases {St} (w : World) (opts : Options)
    (onProgress : option (ProgressFunc St)) (st : St) :
  let r := Convert w opts onProgress st in
  (actions r = [Probe (Input opts)] /\ final r = st
   /\ (buildFFmpegArgs opts = None /\ outcome r = Panicked
       \/ exists args e,
            buildFFmpegArgs opts = Some args /\ outcome r = Returned (Some e)
            /\ (pipeError (ffmpeg w args) <> None
                \/ startError (ffmpeg w args) <> None)))
  \/ exists args act,
       buildFFmpegArgs opts = Some args
       /\ pipeError (ffmpeg w args) = None
       /\ startError (ffmpeg w args) = None
       /\ actions r = [Probe (Input opts); Start args; act; Wait]
       /\ (act = Drain \/ exists d, act = Parse d)
       /\ outcome r
          = Returned (match waitError (ffmpeg w args) with
                      | Some e => Some ("ffmpeg conversion failed: " +:+ e)
                      | None => None
                      end).
Proof.
  unfold Convert.
  destruct (buildFFmpegArgs opts) as [args|]; [|left; cbn; auto].
  destruct (pipeError (ffmpeg w args)) as [e|] eqn:Ep.
  { left. cbn. repeat split. right. exists args, ("failed to capture ffmpeg output: " +:+ e).
    rewrite Ep. repeat split. left. discriminate. }
  destruct (startError (ffmpeg w args)) as [e|] eqn:Es.
  { left. cbn. repeat split. right. exists args, ("failed to start ffmpeg: " +:+ e).
    rewrite Es. repeat split. right. discriminate. }
  right. exists args.
  destruct onProgress as [f|];
    [destruct (0 <? _)|];
    destruct (waitError (ffmpeg w args)); cbn;
    eexists; repeat split; eauto.
Qed.

(** X18. Through [Convert] the callback only ever sees sound values:
    when the probed duration is a 64-bit integer, every value handed to
    the callback is a number (not a NaN) that is at most 100, whatever
    the process writes; the NaN of a zero total cannot occur. *)
Theorem X18_convert_reports_sound_percentages (w : World) (opts : Options)
    (log : list float64) :
  (forall d, ffprobe w (Input opts) = Some d -> d <= maxInt64) ->
  exists ps,
    final (Convert w opts (Some record) log) = (log ++ ps)%list
    /\ forall p, In p ps -> is_nan p = false /\ le p hundred = true.
Proof.
  intros Hd. unfold Convert.
  destruct (buildFFmpegArgs opts) as [args|];
    [|exists []; split; [now rewrite List.app_nil_r|intros p []]].
  destruct (pipeError (ffmpeg w args));
    [exists []; split; [now rewrite List.app_nil_r|intros p []]|].
  destruct (startError (ffmpeg w args));
    [exists []; split; [now rewrite List.app_nil_r|intros p []]|].
  destruct (ffprobe w (Input opts)) as [d|].
  - destruct (Z.ltb_spec 0 d) as [Hpos|Hneg].
    + exists (percentages d (stderrLines (ffmpeg w args))). split.
      * rewrite parseProgress_record.
        destruct (waitError (ffmpeg w args)); reflexivity.
      * intros p Hp. apply percentages_In in Hp as (line & _ & Hp).
        apply (lineProgress_valid d line p); [|exact Hp].
        split; [exact Hpos|now apply Hd].
    + exists []. split; [|intros p []]. rewrite List.app_nil_r.
      destruct (waitError (ffmpeg w args)); reflexivity.
  - exists []. split; [|intros p []]. rewrite List.app_nil_r.
    cbn [Z.ltb Z.compare]. destruct (waitError (ffmpeg w args)); reflexivity.
Qed.

Lemma X18_convert_reports_sound_percentages_witness :
  exists ps,
    final (Convert
             (mkWorld (fun _ => Some (20 * Second))
                (fun _ =>
                   mkProcess None None
                     ["frame=1"; "out_time_us=5000000";
                      "out_time_us=9223372036854776"] None))
             (mkOptions "a.mov" "a.mp4" "mp4" "medium" "" "")
             (Some record) [])
    = ([] ++ ps)%list
    /\ forall p, In p ps -> is_nan p = false /\ le p hundred = true.
Proof.
  apply X18_convert_reports_sound_percentages.
  intros d [= <-]. vm_compute. congruence.
Defined.

(** X19. What a conversion does to the process.  Either it stops
    before the process runs (the builder panicked, or the pipe or the
    start failed): then nothing was started, the callback was never
    called and the result is no success.  Or it starts the process once,
    on the list of the builder, reads or drains its stream, and waits
    for it; the result is then the result of the wait. *)
Theorem X19_convert_protocol {St} (w : World) (opts : Options)
    (onProgress : option (ProgressFunc St)) (st : St) :
  let r := Convert w opts onProgress st in
  (actions r = [Probe (Input opts)] /\ final r = st
   /\ outcome r <> Returned None)
  \/ exists args act,
       buildFFmpegArgs opts = Some args
       /\ actions r = [Probe (Input opts); Start args; act; Wait]
       /\ (act = Drain \/ exists d, act = Parse d)
       /\ (outcome r = Returned None <-> waitError (ffmpeg w args) = None).
Proof.
  intros r. destruct (Convert_cases w opts onProgress st)
    as [(Ha & Hf & Ho)|(args & act & Hb & _ & _ & Ha & Hact & Ho)].
  - left. fold r in Ha, Hf, Ho. repeat split; [exact Ha|exact Hf|].
    destruct Ho as [[_ Ho]|(args & e & _ & Ho & _)]; rewrite Ho; discriminate.
  - right. exists args, act. fold r in Ha, Ho.
    split; [exact Hb|]. split; [exact Ha|]. split; [exact Hact|].
    rewrite Ho. destruct (waitError (ffmpeg w args)); split;
      (discriminate || reflexivity).
Qed.



Lemma RunE_cases {St} (h : Host) (flags : Flags) (arg : string)
    (bar : ProgressFunc St) (st : St) :
  let opts :=
    ResolveOutput
      (mkOptions arg (flagOutput flags) (flagFormat flags)
         (flagQuality flags) (flagResolution flags) (flagCodec flags)) in
  let c := RunE h flags arg bar st in
  (exists e, CheckFFmpeg (lookPath h) = Some e
             /\ c = mkCommand "" None (Returned (Some e)) false)
  \/ (lookPath h "ffmpeg" <> None
      /\ exists e, ValidateOptions (hostStat h) opts = Some e
                   /\ c = mkCommand "" None (Returned (Some e)) false)
  \/ (lookPath h "ffmpeg" <> None
      /\ ValidateOptions (hostStat h) opts = None
      /\ conversion c = Some (Convert (world h) opts (Some bar) st)
      /\ printed c = header opts
      /\ returned c = outcome (Convert (world h) opts (Some bar) st)
      /\ (finished c = true <-> returned c = Returned None)).
Proof.
  intros opts c. subst c. unfold RunE. fold opts.
  unfold CheckFFmpeg.
  destruct (lookPath h "ffmpeg") as [path|] eqn:El.
  - right. destruct (ValidateOptions (hostStat h) opts) as [e|] eqn:Ev.
    + left. split; [discriminate|]. now exists e.
    + right. split; [discriminate|]. split; [reflexivity|].
      destruct (outcome (Convert (world h) opts (Some bar) st)) as [[e|]|];
        cbn; repeat split; auto; discriminate.
  - left. eexists. split; reflexivity.
Qed.

(** X21. The command never panics: validation rejects every resolution
    on which the builder would.  And whenever it starts the process, the
    argument list names the input first and a library and a rate factor
    of the tables. *)
Theorem X21_command_never_panics {St} (h : Host) (flags : Flags) (arg : string)
    (bar : ProgressFunc St) (st : St) :
  let c := RunE h flags arg bar st in
  returned c <> Panicked
  /\ forall r args, conversion c = Some r -> In (Start args) (actions r) ->
       exists lib rate tl,
         In lib Spec.libraries /\ In rate Spec.rateTexts
         /\ args = (["-i"; arg; "-y"; "-progress"; "pipe:2"; "-nostats";
                     "-c:v"; lib; "-crf"; rate] ++ tl)%list.
Proof.
  intros c. destruct (RunE_cases h flags arg bar st)
    as [(e & _ & E)|[(_ & e & _ & E)|(_ & Hv & Hc & _ & Hr & _)]].
  - fold c in E. rewrite E. split; [discriminate|]. intros r args [=].
  - fold c in E. rewrite E. split; [discriminate|]. intros r args [=].
  - fold c in Hc, Hr. set (o := mkOptions _ _ _ _ _ _) in *.
    destruct (validated_builds _ _ Hv) as (tl & Hlib & Hrate & Hb).
    cbn [Input o] in Hb.
    destruct (Convert_cases (world h) (ResolveOutput o) (Some bar) st)
      as [(Ha & _ & [[Hn _]|(args & e & _ & Ho & _)])
         |(args & act & Hb' & _ & _ & Ha & Hact & Ho)].
    + rewrite Hb in Hn. discriminate.
    + split; [rewrite Hr, Ho; discriminate|].
      intros r args' Er. rewrite Hc in Er. injection Er as <-.
      rewrite Ha. intros [H|[]]. discriminate.
    + split; [rewrite Hr, Ho; discriminate|].
      intros r args' Er. rewrite Hc in Er. injection Er as <-.
      rewrite Ha. intros [H|[H|[H|[H|[]]]]]; try discriminate.
      * injection H as <-. rewrite Hb in Hb'. injection Hb' as <-.
        eauto 10.
      * destruct Hact as [->|[d ->]]; discriminate.
Qed.

(** X22. When the command succeeds.  It returns no error exactly when
    [ffmpeg] is found, the resolved request passes validation, and the
    pipe, the start and the wait of the process all succeed; only then
    does it finish the bar and print the closing line.  What the process
    writes and what the probe answers play no part. *)
Theorem X22_command_succeeds_iff {St} (h : Host) (flags : Flags) (arg : string)
    (bar : ProgressFunc St) (st : St) :
  let opts :=
    ResolveOutput
      (mkOptions arg (flagOutput flags) (flagFormat flags)
         (flagQuality flags) (flagResolution flags) (flagCodec flags)) in
  let c := RunE h flags arg bar st in
  (finished c = true <-> returned c = Returned None)
  /\ (returned c = Returned None
      <-> lookPath h "ffmpeg" <> None
          /\ ValidateOptions (hostStat h) opts = None
          /\ exists args,
               buildFFmpegArgs opts = Some args
               /\ pipeError (ffmpeg (world h) args) = None
               /\ startError (ffmpeg (world h) args) = None
               /\ waitError (ffmpeg (world h) args) = None).
Proof.
  cbv zeta. pose proof (RunE_cases h flags arg bar st) as H. cbv zeta in H.
  set (opts := ResolveOutput _) in *. set (c := RunE _ _ _ _ _) in *.
  destruct H as [(e & Hl & E)|[(Hl & e & Hv & E)|(Hl & Hv & _ & _ & Hr & Hf)]].
  - rewrite E. cbn [finished returned]. split; [split; discriminate|].
    split; [discriminate|]. intros [Hl' _]. unfold CheckFFmpeg in Hl.
    destruct (lookPath h "ffmpeg"); [discriminate|]. now destruct Hl'.
  - rewrite E. cbn [finished returned]. split; [split; discriminate|].
    split; [discriminate|]. intros (_ & Hv' & _). congruence.
  - split; [exact Hf|]. rewrite Hr.
    destruct (Convert_cases (world h) opts (Some bar) st)
      as [(_ & _ & [[Hn Ho]|(args & e & Hb & Ho & Herr)])
         |(args & act & Hb & Hp & Hs & _ & _ & Ho)]; rewrite Ho.
    + split; [discriminate|]. intros (_ & _ & args & Hb & _). congruence.
    + split; [discriminate|]. intros (_ & _ & args' & Hb' & Hp & Hs & _).
      rewrite Hb in Hb'. injection Hb' as <-. destruct Herr; congruence.
    + split.
      * intros Hw. split; [exact Hl|]. split; [exact Hv|]. exists args.
        repeat split; auto.
        destruct (waitError (ffmpeg (world h) args)); [discriminate|reflexivity].
      * intros (_ & _ & args' & Hb' & _ & _ & Hw).
        rewrite Hb in Hb'. injection Hb' as <-. now rewrite Hw.
Qed.
